(** * SCRAM analysis core: indexed fault tree, configuration flags and
      Monte Carlo uncertainty analysis

    A shallow embedding of
    - [indexed_fault_tree.h]   (classes [Node], [IGate], [IndexedFaultTree]),
    - [config.cc]              ([Config::GetBoolFromString], [SetAnalysis],
                                [SetApprox]),
    - [uncertainty_analysis.cc] ([UncertaintyAnalysis]),
    - [reporter.cc]            ([Reporter::McsToPrint]),
    followed by the properties established about them.

    Conventions.  A C++ [int] is a [Z]; the only arithmetic on such a
    value in the embedded code is the pre-increment of the gate counter,
    whose signed overflow is undefined and is modelled as a failure.  A
    C++ [double] is a binary64 primitive float.  A function guarded by
    [assert] returns in the [option] monad: [None] stands for a fired
    assertion (or for undefined behaviour), [Some] for a normal return
    together with the updated object. *)

From Stdlib Require Import Floats ZArith Ascii.
From stdpp Require Import gmap strings list sorting.

Local Open Scope Z_scope.

(** ** Assertions *)

Definition assert (b : bool) : option unit := if b then Some tt else None.

Definition INT_MAX : Z := 2147483647.

(** ** indexed_fault_tree.h *)

Module Node.

(** [class Node]: the index, the traversal array [visits_[3]] (first,
    second and last visit) and the parents. *)
Record t : Type := Build {
  index_ : Z;
  visits_0 : Z;
  visits_1 : Z;
  visits_2 : Z;
  parents_ : gset Z
}.

Definition set_visits (a b c : Z) (n : t) : t :=
  Build (index_ n) a b c (parents_ n).

Definition set_parents (p : gset Z) (n : t) : t :=
  Build (index_ n) (visits_0 n) (visits_1 n) (visits_2 n) p.

Definition index (n : t) : Z := index_ n.

Definition parents (n : t) : gset Z := parents_ n.

Definition AddParent (index : Z) (n : t) : option t :=
  assert (0 <? index) ;;
  Some (set_parents ({[ index ]} ∪ parents_ n) n).

Definition EraseParent (index : Z) (n : t) : option t :=
  assert (0 <? index) ;;
  assert (bool_decide (index ∈ parents_ n)) ;;
  Some (set_parents (parents_ n ∖ {[ index ]}) n).

(** [bool Visit(int time)]: the returned flag and the updated node. *)
Definition Visit (time : Z) (n : t) : option (bool * t) :=
  assert (0 <? time) ;;
  if visits_0 n =? 0 then
    Some (false, set_visits time (visits_1 n) (visits_2 n) n)
  else if visits_1 n =? 0 then
    Some (false, set_visits (visits_0 n) time (visits_2 n) n)
  else
    Some (true, set_visits (visits_0 n) (visits_1 n) time n).

Definition EnterTime (n : t) : Z := visits_0 n.

Definition ExitTime (n : t) : Z := visits_1 n.

Definition LastVisit (n : t) : Z :=
  if negb (visits_2 n =? 0) then visits_2 n else visits_1 n.

Definition Revisited (n : t) : bool :=
  if negb (visits_2 n =? 0) then true else false.

Definition Visited (n : t) : bool :=
  if negb (visits_0 n =? 0) then true else false.

Definition ClearVisits (n : t) : t := set_visits 0 0 0 n.

(** A traversal calling [Visit] on one node with the times [ts], in
    order; the flags returned by the calls are collected. *)
Fixpoint VisitAll (ts : list Z) (n : t) : option (list bool * t) :=
  match ts with
  | [] => Some ([], n)
  | time :: ts' =>
      '(b, n1) ← Visit time n;
      '(bs, n2) ← VisitAll ts' n1;
      Some (b :: bs, n2)
  end.

End Node.

Inductive GateType : Type :=
  | kAndGate | kOrGate | kAtleastGate | kXorGate
  | kNotGate | kNandGate | kNorGate | kNullGate.

Inductive State : Type := kNormalState | kNullState | kUnityState.

Definition State_eqb (a b : State) : bool :=
  match a, b with
  | kNormalState, kNormalState | kNullState, kNullState
  | kUnityState, kUnityState => true
  | _, _ => false
  end.

Module IGate.

(** [class IGate : public Node]. *)
Record t : Type := Build {
  node : Node.t;
  type_ : GateType;
  state_ : State;
  vote_number_ : Z;
  children_ : gset Z;
  module_ : bool
}.

Definition index (g : t) : Z := Node.index (node g).

Definition type (g : t) : GateType := type_ g.

Definition state (g : t) : State := state_ g.

Definition children (g : t) : gset Z := children_ g.

Definition IsModule (g : t) : bool := module_ g.

(** Modelled from the spec: the constructor
    [IGate(int index, const GateType& type)], whose body is in the
    absent [indexed_fault_tree.cc].  The header documents that it
    "creates a gate with its index" and "the type of this gate"; the
    remaining members start in their default: no visit, no parent, the
    normal state, no child, not a module. *)
Definition create (index : Z) (type : GateType) : t :=
  Build (Node.Build index 0 0 0 ∅) type kNormalState (-1) ∅ false.

Definition set_state_children (s : State) (c : gset Z) (g : t) : t :=
  Build (node g) (type_ g) s (vote_number_ g) c (module_ g).

Definition EraseAllChildren (g : t) : t :=
  set_state_children (state_ g) ∅ g.

Definition EraseChild (child : Z) (g : t) : option t :=
  assert (bool_decide (child ∈ children_ g)) ;;
  Some (set_state_children (state_ g) (children_ g ∖ {[ child ]}) g).

Definition Nullify (g : t) : option t :=
  assert (State_eqb (state_ g) kNormalState) ;;
  Some (set_state_children kNullState ∅ g).

Definition MakeUnity (g : t) : option t :=
  assert (State_eqb (state_ g) kNormalState) ;;
  Some (set_state_children kUnityState ∅ g).

Definition TurnModule (g : t) : option t :=
  assert (negb (module_ g)) ;;
  Some (Build (node g) (type_ g) (state_ g) (vote_number_ g)
              (children_ g) true).

(** The two terminal transitions, as requests made to a gate. *)
Inductive transition : Type := DoNullify | DoMakeUnity.

Definition apply (tr : transition) (g : t) : option t :=
  match tr with
  | DoNullify => Nullify g
  | DoMakeUnity => MakeUnity g
  end.

Definition target (tr : transition) : State :=
  match tr with
  | DoNullify => kNullState
  | DoMakeUnity => kUnityState
  end.

(** [vote_number()] and the setters [type(t)], [vote_number(number)],
    [children(children)]. *)
Definition vote_number (g : t) : Z := vote_number_ g.

Definition GateType_eqb (a b : GateType) : bool :=
  match a, b with
  | kAndGate, kAndGate | kOrGate, kOrGate | kAtleastGate, kAtleastGate
  | kXorGate, kXorGate | kNotGate, kNotGate | kNandGate, kNandGate
  | kNorGate, kNorGate | kNullGate, kNullGate => true
  | _, _ => false
  end.

Definition set_type (ty : GateType) (g : t) : option t :=
  assert (GateType_eqb ty kAndGate || GateType_eqb ty kOrGate
          || GateType_eqb ty kNotGate || GateType_eqb ty kNullGate) ;;
  Some (Build (node g) ty (state_ g) (vote_number_ g) (children_ g) (module_ g)).

(** The types that the assertion of [type(t)] lets through. *)
Definition is_simple_type (ty : GateType) : bool :=
  match ty with
  | kAndGate | kOrGate | kNotGate | kNullGate => true
  | _ => false
  end.

Definition set_vote_number (number : Z) (g : t) : t :=
  Build (node g) (type_ g) (state_ g) number (children_ g) (module_ g).

Definition set_children (children : gset Z) (g : t) : t :=
  set_state_children (state_ g) children g.

Definition set_node (n : Node.t) (g : t) : t :=
  Build n (type_ g) (state_ g) (vote_number_ g) (children_ g) (module_ g).

(** The member functions defined in the header, those inherited from
    [Node] included, as requests made to a gate. *)
Inductive mutator : Type :=
  | SetType (ty : GateType)
  | SetVoteNumber (number : Z)
  | SetChildren (children : gset Z)
  | DoEraseAllChildren
  | DoEraseChild (child : Z)
  | DoTerminal (tr : transition)
  | DoTurnModule
  | DoAddParent (index : Z)
  | DoEraseParent (index : Z)
  | DoVisit (time : Z)
  | DoClearVisits.

Definition mutate (m : mutator) (g : t) : option t :=
  match m with
  | SetType ty => set_type ty g
  | SetVoteNumber number => Some (set_vote_number number g)
  | SetChildren children => Some (set_children children g)
  | DoEraseAllChildren => Some (EraseAllChildren g)
  | DoEraseChild child => EraseChild child g
  | DoTerminal tr => apply tr g
  | DoTurnModule => TurnModule g
  | DoAddParent index => n ← Node.AddParent index (node g); Some (set_node n g)
  | DoEraseParent index => n ← Node.EraseParent index (node g); Some (set_node n g)
  | DoVisit time => '(_, n) ← Node.Visit time (node g); Some (set_node n g)
  | DoClearVisits => Some (set_node (Node.ClearVisits (node g)) g)
  end.

Fixpoint mutate_all (ms : list mutator) (g : t) : option t :=
  match ms with
  | [] => Some g
  | m :: ms' => g' ← mutate m g; mutate_all ms' g'
  end.

Definition is_terminal_request (m : mutator) : bool :=
  match m with DoTerminal _ => true | _ => false end.

Definition is_module_request (m : mutator) : bool :=
  match m with DoTurnModule => true | _ => false end.

End IGate.

Module IndexedFaultTree.

(** [class IndexedFaultTree].  [indexed_gates_] maps an index to the
    gate the stored pointer refers to. *)
Record t : Type := Build {
  top_event_index_ : Z;
  kGateIndex_ : Z;
  indexed_gates_ : gmap Z IGate.t;
  new_gate_index_ : Z
}.

Definition top_event_index (tree : t) : Z := top_event_index_ tree.

(** [unordered_map::insert]: an existing key keeps its value. *)
Definition map_insert (k : Z) (g : IGate.t) (m : gmap Z IGate.t)
  : gmap Z IGate.t :=
  match m !! k with
  | Some _ => m
  | None => <[ k := g ]> m
  end.

Definition IsGateIndex (index : Z) (tree : t) : option bool :=
  assert (0 <? index) ;;
  Some (kGateIndex_ tree <=? index).

Definition AddGate (gate : IGate.t) (tree : t) : option t :=
  assert (negb (bool_decide (is_Some (indexed_gates_ tree !! IGate.index gate)))) ;;
  Some (Build (top_event_index_ tree) (kGateIndex_ tree)
              (map_insert (IGate.index gate) gate (indexed_gates_ tree))
              (new_gate_index_ tree)).

Definition GetGate (index : Z) (tree : t) : option IGate.t :=
  assert (0 <? index) ;;
  assert (kGateIndex_ tree <=? index) ;;
  indexed_gates_ tree !! index.

(** [CreateGate(type)]: [++new_gate_index_] is undefined at [INT_MAX]. *)
Definition CreateGate (type : GateType) (tree : t) : option (IGate.t * t) :=
  assert (new_gate_index_ tree <? INT_MAX) ;;
  let new_gate_index := new_gate_index_ tree + 1 in
  let gate := IGate.create new_gate_index type in
  Some (gate,
        Build (top_event_index_ tree) (kGateIndex_ tree)
              (map_insert (IGate.index gate) gate (indexed_gates_ tree))
              new_gate_index).


(** Every stored gate sits under its own index, and no stored index
    is beyond the counter of created gates. *)
Definition well_indexed (tree : t) : Prop :=
  ∀ k g, indexed_gates_ tree !! k = Some g →
         IGate.index g = k ∧ k ≤ new_gate_index_ tree.

Definition no_shared_index (tree : t) : Prop :=
  ∀ k1 k2 g1 g2,
    indexed_gates_ tree !! k1 = Some g1 →
    indexed_gates_ tree !! k2 = Some g2 →
    IGate.index g1 = IGate.index g2 → k1 = k2.

(** [top_event_index(index)] and [top_event()]. *)
Definition set_top_event_index (index : Z) (tree : t) : t :=
  Build index (kGateIndex_ tree) (indexed_gates_ tree) (new_gate_index_ tree).

Definition top_event (tree : t) : option IGate.t :=
  assert (bool_decide (is_Some (indexed_gates_ tree !! top_event_index_ tree))) ;;
  indexed_gates_ tree !! top_event_index_ tree.

(** The member functions that change the tree, as requests. *)
Inductive request : Type :=
  | DoAddGate (gate : IGate.t)
  | DoCreateGate (type : GateType)
  | DoSetTop (index : Z).

Definition serve (r : request) (tree : t) : option t :=
  match r with
  | DoAddGate gate => AddGate gate tree
  | DoCreateGate type => snd <$> CreateGate type tree
  | DoSetTop index => Some (set_top_event_index index tree)
  end.

Fixpoint serve_all (rs : list request) (tree : t) : option t :=
  match rs with
  | [] => Some tree
  | r :: rs' => tree' ← serve r tree; serve_all rs' tree'
  end.

(** Every stored gate sits under its own index. *)
Definition stored_under_own_index (tree : t) : Prop :=
  ∀ k g, indexed_gates_ tree !! k = Some g → IGate.index g = k.

End IndexedFaultTree.

(** ** config.cc *)

Module Config.

Definition GetBoolFromString (flag : string) : option bool :=
  assert (String.eqb flag "1" || String.eqb flag "true"
          || String.eqb flag "0" || String.eqb flag "false") ;;
  if String.eqb flag "1" || String.eqb flag "true" then Some true
  else Some false.

End Config.

(** ** uncertainty_analysis.cc *)

Abbreviation double := float.

(** Conversion of an [int] to [double]; exact for every 32-bit value. *)
Definition double_of_int (n : Z) : double :=
  if n <? 0 then PrimFloat.opp (PrimFloat.of_uint63 (Uint63.of_Z (- n)))
  else PrimFloat.of_uint63 (Uint63.of_Z n).

(** [std::vector::operator[]] with an [int] subscript; a subscript
    outside the vector is undefined behaviour. *)
Definition at_index {A} (v : list A) (i : Z) : option A :=
  if i <? 0 then None else v !! Z.to_nat i.

Definition store_index {A} (v : list A) (i : Z) (x : A) : option (list A) :=
  if (0 <=? i) && (i <? Z.of_nat (length v)) then Some (<[ Z.to_nat i := x ]> v)
  else None.

(** Modelled from the spec: the [Settings] value of section 3 (its
    class is declared in the absent [settings.h]); the analysis reads it
    through the accessors of the same names. *)
Record Settings : Type := {
  limit_order : Z;
  cut_off : double;
  num_sums : Z;
  approx : string;
  mission_time : double;
  num_trials : Z;
  seed : Z;
  probability_analysis : bool;
  importance_analysis : bool;
  uncertainty_analysis : bool;
  ccf_analysis : bool
}.

(** The basic-event objects and the pseudo-random source behind them
    are external collaborators ([event.h] is not among the sources and
    [random.h] only declares the generators): an interface with the
    three operations that [UncertaintyAnalysis] calls, the state of the
    generator being passed explicitly. *)
Class BasicEvents : Type := {
  BasicEvent : Type;
  Random : Type;
  IsConstant : BasicEvent → bool;
  Reset : BasicEvent → BasicEvent;
  SampleProbability : BasicEvent → Random → double * BasicEvent * Random
}.

(** The features of Boost.Accumulators (an external library) that
    [CalculateStatistics] extracts, each as a function of the samples
    pushed into the accumulator set, in push order. *)
Class Accumulators : Type := {
  acc_mean : list double → double;
  acc_variance : list double → double;
  (** [density(acc)] for [num_bins] and [cache_size]. *)
  acc_density : Z → Z → list double → list (double * double);
  (** [quantile(acc_q, quantile_probability = p)] for an accumulator
      built with the given [extended_p_square_probabilities]. *)
  acc_quantile : list double → list double → double → double
}.

(** The members of the base class [ProbabilityAnalysis] (declared in
    the absent [probability_analysis.h]) that [uncertainty_analysis.cc]
    reads and writes, with the types their uses there give them;
    [basic_to_int_] is the side table from identifiers to indices that
    the re-indexing of the cut sets goes through. *)
Record ProbabilityAnalysis `{BasicEvents} : Type := BuildProbabilityAnalysis {
  warnings_ : string;
  min_cut_sets_ : gset (gset string);
  basic_to_int_ : gmap string Z;
  int_to_basic_ : list BasicEvent;
  iprobs_ : list double;
  imcs_ : list (list Z);
  mcs_basic_events_ : gset Z;
  pos_terms_ : list (list Z);
  neg_terms_ : list (list Z)
}.

(** The member functions of [ProbabilityAnalysis] called by
    [UncertaintyAnalysis]; [probability_analysis.cc] is absent.  A
    [flat_set<int>] is the ascending vector of its elements. *)
Class ProbabilityAnalysisMethods `{BasicEvents} : Type := {
  IndexMcs : gset (gset string) → ProbabilityAnalysis → ProbabilityAnalysis;
  ProbAnd : list Z → ProbabilityAnalysis → double;
  ProbOr : Z → Z → gset (list Z) → ProbabilityAnalysis → ProbabilityAnalysis
}.

(** [class UncertaintyAnalysis], derived from [ProbabilityAnalysis].
    The wall-clock member [analysis_time_] is left out; [random_] is the
    state of the generator the basic events draw from. *)
Record UncertaintyAnalysis `{BasicEvents} : Type := BuildUncertaintyAnalysis {
  base : ProbabilityAnalysis;
  kSettings_ : Settings;
  num_bins_ : Z;
  num_quantiles_ : Z;
  mean_ : double;
  sigma_ : double;
  confidence_interval_ : double * double;
  distribution_ : list (double * double);
  quantiles_ : list double;
  sampled_results_ : list double;
  pos_const_ : list double;
  neg_const_ : list double;
  random_ : Random
}.

Section UncertaintyAnalysisModel.
Context `{BE : BasicEvents} `{!Accumulators} `{!ProbabilityAnalysisMethods}.

Definition set_warnings (w : string) (p : ProbabilityAnalysis) :=
  BuildProbabilityAnalysis _ w (min_cut_sets_ p) (basic_to_int_ p)
    (int_to_basic_ p) (iprobs_ p) (imcs_ p) (mcs_basic_events_ p)
    (pos_terms_ p) (neg_terms_ p).

Definition set_min_cut_sets (m : gset (gset string)) (p : ProbabilityAnalysis) :=
  BuildProbabilityAnalysis _ (warnings_ p) m (basic_to_int_ p)
    (int_to_basic_ p) (iprobs_ p) (imcs_ p) (mcs_basic_events_ p)
    (pos_terms_ p) (neg_terms_ p).

Definition set_events (evs : list BasicEvent) (probs : list double)
    (p : ProbabilityAnalysis) :=
  BuildProbabilityAnalysis _ (warnings_ p) (min_cut_sets_ p) (basic_to_int_ p)
    evs probs (imcs_ p) (mcs_basic_events_ p) (pos_terms_ p) (neg_terms_ p).

Definition set_terms (pos neg : list (list Z)) (p : ProbabilityAnalysis) :=
  BuildProbabilityAnalysis _ (warnings_ p) (min_cut_sets_ p) (basic_to_int_ p)
    (int_to_basic_ p) (iprobs_ p) (imcs_ p) (mcs_basic_events_ p) pos neg.

Definition set_base (p : ProbabilityAnalysis) (ua : UncertaintyAnalysis) :=
  BuildUncertaintyAnalysis _ p (kSettings_ ua) (num_bins_ ua)
    (num_quantiles_ ua) (mean_ ua) (sigma_ ua) (confidence_interval_ ua)
    (distribution_ ua) (quantiles_ ua) (sampled_results_ ua)
    (pos_const_ ua) (neg_const_ ua) (random_ ua).

Definition set_consts (pc nc : list double) (ua : UncertaintyAnalysis) :=
  BuildUncertaintyAnalysis _ (base ua) (kSettings_ ua) (num_bins_ ua)
    (num_quantiles_ ua) (mean_ ua) (sigma_ ua) (confidence_interval_ ua)
    (distribution_ ua) (quantiles_ ua) (sampled_results_ ua)
    pc nc (random_ ua).

Definition set_random (r : Random) (ua : UncertaintyAnalysis) :=
  BuildUncertaintyAnalysis _ (base ua) (kSettings_ ua) (num_bins_ ua)
    (num_quantiles_ ua) (mean_ ua) (sigma_ ua) (confidence_interval_ ua)
    (distribution_ ua) (quantiles_ ua) (sampled_results_ ua)
    (pos_const_ ua) (neg_const_ ua) r.

Definition push_sampled_result (x : double) (ua : UncertaintyAnalysis) :=
  BuildUncertaintyAnalysis _ (base ua) (kSettings_ ua) (num_bins_ ua)
    (num_quantiles_ ua) (mean_ ua) (sigma_ ua) (confidence_interval_ ua)
    (distribution_ ua) (quantiles_ ua) (sampled_results_ ua ++ [x])
    (pos_const_ ua) (neg_const_ ua) (random_ ua).

Definition set_statistics (m s : double) (ci : double * double)
    (d : list (double * double)) (q : list double)
    (ua : UncertaintyAnalysis) :=
  BuildUncertaintyAnalysis _ (base ua) (kSettings_ ua) (num_bins_ ua)
    (num_quantiles_ ua) m s ci d q (sampled_results_ ua)
    (pos_const_ ua) (neg_const_ ua) (random_ ua).

(** [UncertaintyAnalysis(const Settings&)], on top of the constructed
    base object and the generator state. *)
Definition create (settings : Settings) (p : ProbabilityAnalysis)
    (r : Random) : UncertaintyAnalysis :=
  BuildUncertaintyAnalysis _ p settings 20 20 0%float 0%float
    (0%float, 0%float) [] [] [] [] [] r.

(** The test of the special case in [Analyze]:
    [size() == 1 && begin()->empty()].  [begin()] is only reached for
    a family of one element, which is then the first one listed. *)
Definition is_unity (min_cut_sets : gset (gset string)) : bool :=
  bool_decide (size min_cut_sets = 1%nat)
  && match elements min_cut_sets with
     | s :: _ => bool_decide (s = ∅)
     | [] => false
     end.

(** The loop of [Analyze] that fills the local [iset]. *)
Definition build_iset (ua : UncertaintyAnalysis) : gset (list Z) :=
  fold_left
    (λ (iset : gset (list Z)) (it_min : list Z),
       if PrimFloat.ltb (cut_off (kSettings_ ua)) (ProbAnd it_min (base ua))
       then {[ it_min ]} ∪ iset
       else iset)
    (imcs_ (base ua)) ∅.

(** The value of the local [num_sums] handed to [ProbOr]. *)
Definition series_depth (settings : Settings) : Z :=
  let num_sums := num_sums settings in
  if String.eqb (approx settings) "rare-event" then 1 else num_sums.

(** [iprobs_[i]] for a positive literal, [1 - iprobs_[-i]] otherwise. *)
Definition literal_prob (iprobs : list double) (i : Z) : option double :=
  if 0 <? i then at_index iprobs i
  else p ← at_index iprobs (- i); Some (1 - p)%float.

(** First loop of [FilterUncertainEvents]: the constant events and the
    vector of the others, over [mcs_basic_events_] in ascending order. *)
Fixpoint split_events (events : list BasicEvent) (its : list Z)
    (const_events : gset Z) (basic_events : list Z)
  : option (gset Z * list Z) :=
  match its with
  | [] => Some (const_events, basic_events)
  | it :: its' =>
      e ← at_index events it;
      if IsConstant e
      then split_events events its' ({[ it ]} ∪ const_events) basic_events
      else split_events events its' const_events (basic_events ++ [it])
  end.

(** Inner loop of [FilterUncertainEvents] on one term.  The source
    erases a constant literal and restarts from [begin()]; the literals
    before it were already found not constant, so the literals are
    treated once each, in ascending order. *)
Fixpoint strip_constants (const_events : gset Z) (iprobs : list double)
    (it_set : list Z) (const_prob : double) : option (list Z * double) :=
  match it_set with
  | [] => Some ([], const_prob)
  | it_f :: rest =>
      if bool_decide (Z.abs it_f ∈ const_events) then
        p ← literal_prob iprobs it_f;
        strip_constants const_events iprobs rest (const_prob * p)%float
      else
        '(kept, c) ← strip_constants const_events iprobs rest const_prob;
        Some (it_f :: kept, c)
  end.

Fixpoint strip_terms (const_events : gset Z) (iprobs : list double)
    (terms : list (list Z)) : option (list (list Z) * list double) :=
  match terms with
  | [] => Some ([], [])
  | it_set :: rest =>
      '(kept, c) ← strip_constants const_events iprobs it_set 1%float;
      '(terms', consts) ← strip_terms const_events iprobs rest;
      Some (kept :: terms', c :: consts)
  end.

Definition FilterUncertainEvents (ua : UncertaintyAnalysis)
  : option (list Z * UncertaintyAnalysis) :=
  let p := base ua in
  '(const_events, basic_events) ←
    split_events (int_to_basic_ p)
      (merge_sort Z.le (elements (mcs_basic_events_ p))) ∅ [];
  '(pos, pos_c) ← strip_terms const_events (iprobs_ p) (pos_terms_ p);
  '(neg, neg_c) ← strip_terms const_events (iprobs_ p) (neg_terms_ p);
  Some (basic_events,
        set_consts (pos_const_ ua ++ pos_c) (neg_const_ ua ++ neg_c)
          (set_base (set_terms pos neg p) ua)).

Fixpoint reset_events (basic_events : list Z) (events : list BasicEvent)
  : option (list BasicEvent) :=
  match basic_events with
  | [] => Some events
  | it_b :: rest =>
      e ← at_index events it_b;
      events' ← store_index events it_b (Reset e);
      reset_events rest events'
  end.

Fixpoint sample_events (basic_events : list Z) (events : list BasicEvent)
    (iprobs : list double) (r : Random)
  : option (list BasicEvent * list double * Random) :=
  match basic_events with
  | [] => Some (events, iprobs, r)
  | it_b :: rest =>
      e ← at_index events it_b;
      let '(prob, e', r') := SampleProbability e r in
      events' ← store_index events it_b e';
      assert (PrimFloat.leb 0 prob && PrimFloat.leb prob 1) ;;
      iprobs' ← store_index iprobs it_b prob;
      sample_events rest events' iprobs' r'
  end.

(** The accumulation of [pos] (and of [neg]) in one trial. *)
Fixpoint sum_terms (p : ProbabilityAnalysis) (terms : list (list Z))
    (consts : list double) (j : Z) (acc : double) : option double :=
  match terms with
  | [] => Some acc
  | it_s :: rest =>
      c ← at_index consts j;
      sum_terms p rest consts (j + 1)
        (match it_s with
         | [] => acc + c
         | _ => acc + ProbAnd it_s p * c
         end)%float
  end.

Definition trial (basic_events : list Z) (ua : UncertaintyAnalysis)
  : option UncertaintyAnalysis :=
  events ← reset_events basic_events (int_to_basic_ (base ua));
  '(events, iprobs, r) ←
    sample_events basic_events events (iprobs_ (base ua)) (random_ ua);
  let ua := set_random r (set_base (set_events events iprobs (base ua)) ua) in
  pos ← sum_terms (base ua) (pos_terms_ (base ua)) (pos_const_ ua) 0 0%float;
  neg ← sum_terms (base ua) (neg_terms_ (base ua)) (neg_const_ ua) 0 0%float;
  Some (push_sampled_result (pos - neg)%float ua).

Fixpoint trials (n : nat) (basic_events : list Z) (ua : UncertaintyAnalysis)
  : option UncertaintyAnalysis :=
  match n with
  | O => Some ua
  | S n' => ua' ← trial basic_events ua; trials n' basic_events ua'
  end.

Definition Sample (ua : UncertaintyAnalysis) : option UncertaintyAnalysis :=
  '(basic_events, ua) ← FilterUncertainEvents ua;
  trials (Z.to_nat (num_trials (kSettings_ ua))) basic_events ua.

(** The probabilities [delta * (i + 1)] pushed by the first loop of
    [CalculateStatistics]. *)
Definition quantile_probabilities (num_quantiles : Z) : list double :=
  let delta := (1 / double_of_int num_quantiles)%float in
  map (λ i : nat, (delta * double_of_int (Z.of_nat i + 1))%float)
      (seq 0 (Z.to_nat num_quantiles)).

Definition CalculateStatistics (ua : UncertaintyAnalysis)
  : UncertaintyAnalysis :=
  let quantiles := quantile_probabilities (num_quantiles_ ua) in
  let num_trials := num_trials (kSettings_ ua) in
  let samples := sampled_results_ ua in
  let hist := acc_density 20 num_trials samples in
  let distribution := distribution_ ua ++ drop 1 hist in
  let mean := acc_mean samples in
  let var := acc_variance samples in
  let sigma := PrimFloat.sqrt var in
  let ci :=
    ((mean - sigma * 0x1.f5c28f5c28f5cp+0 / PrimFloat.sqrt (double_of_int num_trials))%float,
     (mean + sigma * 0x1.f5c28f5c28f5cp+0 / PrimFloat.sqrt (double_of_int num_trials))%float) in
  set_statistics mean sigma ci distribution
    (map (acc_quantile quantiles samples) quantiles) ua.

Definition Analyze (min_cut_sets : gset (gset string))
    (ua : UncertaintyAnalysis) : option UncertaintyAnalysis :=
  let ua := set_base (set_min_cut_sets min_cut_sets (base ua)) ua in
  if is_unity (min_cut_sets_ (base ua)) then
    let ua :=
      set_base (set_warnings (warnings_ (base ua) +:+ "Uncertainty for UNITY case.")
                             (base ua)) ua in
    Some (set_statistics 1%float 0%float (1%float, 1%float)
            (distribution_ ua ++ [(1%float, 1%float)])
            (quantiles_ ua ++ [1%float]) ua)
  else
    let ua := set_base (IndexMcs (min_cut_sets_ (base ua)) (base ua)) ua in
    let iset := build_iset ua in
    let ua := set_base (ProbOr 1 (series_depth (kSettings_ ua)) iset (base ua)) ua in
    ua ← Sample ua;
    Some (CalculateStatistics ua).

(** The general case of [Analyze] when the series expansion is built
    with the truncation depth [nsums]. *)
Definition analysis_with_depth (nsums : Z) (min_cut_sets : gset (gset string))
    (ua : UncertaintyAnalysis) : option UncertaintyAnalysis :=
  let ua := set_base (set_min_cut_sets min_cut_sets (base ua)) ua in
  let ua := set_base (IndexMcs min_cut_sets (base ua)) ua in
  let ua := set_base (ProbOr 1 nsums (build_iset ua) (base ua)) ua in
  ua ← Sample ua;
  Some (CalculateStatistics ua).

End UncertaintyAnalysisModel.

(** ** Collaborators outside the sources *)

(** Modelled from the spec: the basic-event model of section 4.B (its
    class is declared in the absent [event.h]).  An event "carries a
    nominal probability and optionally a named distribution";
    [SampleProbability] "draws a new value from the distribution (or
    returns the nominal if none) and caches it until [Reset]";
    [IsConstant] "is true when there is no distribution".  The generator
    together with the distribution is a tape of the values still to be
    drawn. *)
Module SpecEvent.

Record t : Type := Build {
  nominal : double;
  has_distribution : bool;
  cached : option double
}.

Definition IsConstant (e : t) : bool := negb (has_distribution e).

Definition Reset (e : t) : t := Build (nominal e) (has_distribution e) None.

Definition SampleProbability (e : t) (tape : list double)
  : double * t * list double :=
  if has_distribution e then
    match cached e, tape with
    | Some v, _ => (v, e, tape)
    | None, v :: tape' => (v, Build (nominal e) true (Some v), tape')
    | None, [] => (nominal e, e, [])
    end
  else (nominal e, e, tape).

(** Events and tapes that only hold probabilities. *)
Definition is_probability (prob : double) : bool :=
  PrimFloat.leb 0 prob && PrimFloat.leb prob 1.

Definition good (e : t) : Prop :=
  is_probability (nominal e) = true ∧
  ∀ v, cached e = Some v → is_probability v = true.

Definition good_tape (tape : list double) : Prop :=
  Forall (λ v, is_probability v = true) tape.

End SpecEvent.

#[export] Instance spec_events : BasicEvents := {|
  BasicEvent := SpecEvent.t;
  Random := list double;
  IsConstant := SpecEvent.IsConstant;
  Reset := SpecEvent.Reset;
  SampleProbability := SpecEvent.SampleProbability
|}.

(** Modelled from the spec: the three member functions of the
    probability engine of section 4.F that [probability_analysis.cc]
    would supply. *)
Module SpecProbability.
Section Methods.
Context `{BE : BasicEvents}.

(** "Complemented literals" carry the prefix [not ]; a literal is
    re-indexed through the side table of identifiers, negated when
    complemented. *)
Definition literal_index (table : gmap string Z) (name : string) : Z :=
  match name with
  | String "n"%char (String "o"%char (String "t"%char (String " "%char id))) =>
      - default 0 (table !! id)
  | _ => default 0 (table !! name)
  end.

Definition flat_set (l : list Z) : list Z :=
  merge_sort Z.le (remove_dups l).

(** "Re-index MCS into a vector of flat signed-integer sets [imcs]". *)
Definition IndexMcs (min_cut_sets : gset (gset string))
    (p : ProbabilityAnalysis) : ProbabilityAnalysis :=
  let imcs :=
    map (λ s : gset string,
           flat_set (map (literal_index (basic_to_int_ p)) (elements s)))
        (elements min_cut_sets) in
  BuildProbabilityAnalysis _ (warnings_ p) (min_cut_sets_ p) (basic_to_int_ p)
    (int_to_basic_ p) (iprobs_ p) imcs
    (list_to_set (map Z.abs (concat imcs)))
    (pos_terms_ p) (neg_terms_ p).

(** "[ProbAnd(S)] = product over [i] of [p(i)] if positive else
    [1 - p(-i)]". *)
Definition ProbAnd (S : list Z) (p : ProbabilityAnalysis) : double :=
  fold_left
    (λ acc i, (acc * default 0 (literal_prob (iprobs_ p) i))%float)
    S 1%float.

(** The sub-families of [k] members. *)
Fixpoint choose {A} (l : list A) (k : nat) : list (list A) :=
  match k, l with
  | O, _ => [[]]
  | S _, [] => []
  | S k', x :: l' => map (cons x) (choose l' k') ++ choose l' k
  end.

(** The terms of order [k] of the series: the unions of the
    sub-families of [k] cut sets. *)
Definition terms_of_order (sets : list (list Z)) (k : nat) : list (list Z) :=
  map (λ T, flat_set (concat T)) (choose sets k).

(** "the alternating sum over [k = 1..num_sums] of [(-1)^(k+1)] times
    the sum over [|T| = k] of [ProbAnd] of the union of [T]; positive
    and negative contributing sub-sets are accumulated into
    [pos_terms]/[neg_terms]". *)
Definition ProbOr (sign : Z) (nsums : Z) (iset : gset (list Z))
    (p : ProbabilityAnalysis) : ProbabilityAnalysis :=
  let sets := elements iset in
  let orders := seq 1 (Z.to_nat nsums) in
  let odd := concat (map (terms_of_order sets) (filter (λ k, Nat.odd k = true) orders)) in
  let even := concat (map (terms_of_order sets) (filter (λ k, Nat.even k = true) orders)) in
  let '(pos, neg) := if 0 <? sign then (odd, even) else (even, odd) in
  BuildProbabilityAnalysis _ (warnings_ p) (min_cut_sets_ p) (basic_to_int_ p)
    (int_to_basic_ p) (iprobs_ p) (imcs_ p) (mcs_basic_events_ p)
    (pos_terms_ p ++ pos) (neg_terms_ p ++ neg).

End Methods.
End SpecProbability.

#[export] Instance spec_probability `{BasicEvents} : ProbabilityAnalysisMethods := {|
  IndexMcs := SpecProbability.IndexMcs;
  ProbAnd := SpecProbability.ProbAnd;
  ProbOr := SpecProbability.ProbOr
|}.

(** The accumulator features as Boost.Accumulators (a library outside
    the repository) documents them.  [mean] is the sum over the count;
    [variance] is the iterative calculation of the variance with
    divisor [n] (the library also has a lazy variant, the second
    moment minus the squared mean, with the same mathematical
    value).  [density] is a histogram of [num_bins + 2]
    pairs (lower bound of the bin, share of the samples in it) whose
    first and last entries are the underflow and the overflow bin; the
    bins split the range of the first [cache_size] samples evenly. *)
Module Boost.

Definition count (samples : list double) : double :=
  double_of_int (Z.of_nat (length samples)).

Definition sum (samples : list double) : double :=
  fold_left (λ acc x, (acc + x)%float) samples 0%float.

Definition mean (samples : list double) : double :=
  (sum samples / count samples)%float.

(** One sample more for [tag::variance]: with [cnt] samples seen, the
    last of them [x], and [m] their mean,
    [var := var * (cnt - 1) / cnt + (x - m) * (x - m) / (cnt - 1)];
    the first sample leaves the initial 0. *)
Definition variance_step (state : Z * double * double) (x : double)
  : Z * double * double :=
  let '(cnt, total, var) := state in
  let cnt := cnt + 1 in
  let total := (total + x)%float in
  let var :=
    if 1 <? cnt then
      let tmp := (x - total / double_of_int cnt)%float in
      (var * double_of_int (cnt - 1) / double_of_int cnt
       + tmp * tmp / double_of_int (cnt - 1))%float
    else var in
  (cnt, total, var).

Definition variance (samples : list double) : double :=
  (fold_left variance_step samples (0, 0%float, 0%float)).2.

Definition DBL_MAX : double := 0x1.fffffffffffffp+1023%float.

Definition min (samples : list double) : double :=
  fold_left (λ m x, if PrimFloat.ltb x m then x else m) samples DBL_MAX.

Definition max (samples : list double) : double :=
  fold_left (λ m x, if PrimFloat.ltb m x then x else m) samples
    (PrimFloat.opp DBL_MAX).

Definition le (a b : double) : Prop := PrimFloat.leb a b = true.

#[export] Instance le_dec : RelDecision le :=
  λ a b, bool_eq_dec (PrimFloat.leb a b) true.

(** [std::upper_bound]: the position of the first bound above [x]. *)
Fixpoint upper_bound (bounds : list double) (x : double) : nat :=
  match bounds with
  | [] => O
  | b :: rest => if PrimFloat.ltb x b then O else S (upper_bound rest x)
  end.

Definition bin_of (num_bins : nat) (bin_positions : list double)
    (x : double) : nat :=
  if PrimFloat.ltb x (nth 1 bin_positions 0%float) then O
  else if PrimFloat.leb (nth (S num_bins) bin_positions 0%float) x
       then S num_bins
       else Nat.pred (upper_bound bin_positions x).

Definition density (num_bins cache_size : Z) (samples : list double)
  : list (double * double) :=
  let nb := Z.to_nat num_bins in
  let cnt := Z.of_nat (length samples) in
  (* the bins are laid out when the [cache_size]-th sample arrives *)
  let built := (0 <? cache_size) && (cache_size <=? cnt) in
  let cache := take (Z.to_nat cache_size) samples in
  let bin_size := ((max cache - min cache) / double_of_int num_bins)%float in
  let bin_positions :=
    map (λ i : nat,
           if built
           then (min cache + (double_of_int (Z.of_nat i) - 1) * bin_size)%float
           else 0%float)
        (seq 0 (nb + 2)) in
  let binned :=
    if cnt <? cache_size then [] else map (bin_of nb bin_positions) samples in
  map (λ i : nat,
         (nth i bin_positions 0%float,
          (double_of_int
             (Z.of_nat (length (filter (λ b, b = i) binned)))
           / count samples)%float))
      (seq 0 (nb + 2)).

(** The order statistic of rank [ceil (k * n / m)] for the [k]-th of
    [m] probabilities.  It stands in for the P-square estimator of the
    library wherever an accumulator set has to be run; no statement
    below reads the quantile table. *)
Definition rank_quantile (probabilities samples : list double)
    (p : double) : double :=
  let sorted := merge_sort le samples in
  let k := upper_bound probabilities p in
  let m := length probabilities in
  let rank := ((k * length samples + m - 1) / m)%nat in
  nth (Nat.pred rank) sorted 0%float.

(** [boost::split(names, s, boost::is_any_of(" "), token_compress_on)]:
    the tokens between the maximal runs of spaces; a run at the start
    or at the end of the string leaves an empty first or last token. *)
Fixpoint split_from (s : string) (token : string) (after_space : bool)
  : list string :=
  match s with
  | EmptyString => [token]
  | String c rest =>
      if Ascii.eqb c " "%char then
        if after_space then split_from rest token true
        else token :: split_from rest "" true
      else split_from rest (token +:+ String c "") false
  end.

Definition split (s : string) : list string := split_from s "" false.

End Boost.

#[export] Instance boost_accumulators : Accumulators := {|
  acc_mean := Boost.mean;
  acc_variance := Boost.variance;
  acc_density := Boost.density;
  acc_quantile := Boost.rank_quantile
|}.



(** ** config.cc: the option groups *)

(** Modelled from the spec: the setters of [Settings] that [Config]
    calls (the class is declared in the absent [settings.h]), as an
    interface; they are taken to return normally. *)
Class SettingsSetters : Type := {
  with_probability_analysis : bool → Settings → Settings;
  with_importance_analysis : bool → Settings → Settings;
  with_uncertainty_analysis : bool → Settings → Settings;
  with_ccf_analysis : bool → Settings → Settings;
  with_approx : string → Settings → Settings
}.

Module ConfigOptions.
Section Setters.
Context `{SettingsSetters}.

(** [Config::SetAnalysis]: the element is given by the list of its
    attributes, each a name and a value. *)
Fixpoint SetAnalysis (attr : list (string * string)) (settings : Settings)
  : option Settings :=
  match attr with
  | [] => Some settings
  | (name, value) :: rest =>
      flag ← Config.GetBoolFromString value;
      SetAnalysis rest
        (if String.eqb name "probability" then
           with_probability_analysis flag settings
         else if String.eqb name "importance" then
           with_importance_analysis flag settings
         else if String.eqb name "uncertainty" then
           with_uncertainty_analysis flag settings
         else if String.eqb name "ccf" then
           with_ccf_analysis flag settings
         else settings)
  end.

Fixpoint approx_elements (elements : list string) (settings : Settings)
  : option Settings :=
  match elements with
  | [] => Some settings
  | name :: rest =>
      assert (String.eqb name "rare-event" || String.eqb name "mcub") ;;
      approx_elements rest (with_approx name settings)
  end.

(** [Config::SetApprox]: the element is given by the names of its
    child elements. *)
Definition SetApprox (elements : list string) (settings : Settings)
  : option Settings :=
  assert (length elements =? 1)%nat ;;
  approx_elements elements settings.

Definition recognised (name : string) : bool :=
  String.eqb name "probability" || String.eqb name "importance"
  || String.eqb name "uncertainty" || String.eqb name "ccf".

End Setters.
End ConfigOptions.

(** Modelled from the spec: setters that store the toggle or the
    approximation of section 3 as given. *)
#[export] Instance spec_setters : SettingsSetters := {|
  with_probability_analysis flag s :=
    Build_Settings (limit_order s) (cut_off s) (num_sums s) (approx s)
      (mission_time s) (num_trials s) (seed s) flag (importance_analysis s)
      (uncertainty_analysis s) (ccf_analysis s);
  with_importance_analysis flag s :=
    Build_Settings (limit_order s) (cut_off s) (num_sums s) (approx s)
      (mission_time s) (num_trials s) (seed s) (probability_analysis s) flag
      (uncertainty_analysis s) (ccf_analysis s);
  with_uncertainty_analysis flag s :=
    Build_Settings (limit_order s) (cut_off s) (num_sums s) (approx s)
      (mission_time s) (num_trials s) (seed s) (probability_analysis s)
      (importance_analysis s) flag (ccf_analysis s);
  with_ccf_analysis flag s :=
    Build_Settings (limit_order s) (cut_off s) (num_sums s) (approx s)
      (mission_time s) (num_trials s) (seed s) (probability_analysis s)
      (importance_analysis s) (uncertainty_analysis s) flag;
  with_approx name s :=
    Build_Settings (limit_order s) (cut_off s) (num_sums s) name
      (mission_time s) (num_trials s) (seed s) (probability_analysis s)
      (importance_analysis s) (uncertainty_analysis s) (ccf_analysis s)
|}.

(** ** reporter.cc *)

Module Reporter.
Section McsToPrint.

(** [boost::split] with [is_any_of(" ")] and [token_compress_on]. *)
Variable split : string → list string.

(** The table [primary_events], each identifier with the [orig_id()]
    of the event it points to. *)
Variable primary_events : gmap string string.

(** The [name] printed for one member of a cut set; looking up an
    identifier that is not in the table is undefined. *)
Definition display_name (full_name : string) : option string :=
  let names := split full_name in
  assert (length names <? 3)%nat ;;
  assert (0 <? length names)%nat ;;
  match names with
  | [id] => primary_events !! id
  | [_; id] => orig_id ← primary_events !! id; Some ("NOT " +:+ orig_id)
  | _ => Some ""
  end.

(** The loop over the members of one cut set: the current [line], the
    lines already closed and the position [j] of the member. *)
Fixpoint print_members (members : list string) (size j : Z)
    (line : string) (vec_line : list string) : option (string * list string) :=
  match members with
  | [] => Some (line, vec_line)
  | full_name :: rest =>
      name ← display_name full_name;
      let '(line, vec_line) :=
        if (60 <? String.length line + String.length name + 2)%nat
        then (name, vec_line ++ [line])
        else (line +:+ name, vec_line) in
      let line := if j <? size then line +:+ ", " else line +:+ " " in
      print_members rest size (j + 1) line vec_line
  end.

(** The lines of one cut set, given by the ascending listing of its
    members. *)
Definition print_set (min_cut_set : list string) : option (list string) :=
  '(line, vec_line) ←
    print_members min_cut_set (Z.of_nat (length min_cut_set)) 1 "{ " [];
  Some (vec_line ++ [line +:+ "}"]).

(** [Reporter::McsToPrint]: the family is given by the listing of its
    cut sets; [std::map::insert] keeps an entry that is already there. *)
Fixpoint McsToPrint (min_cut_sets : list (list string))
    (lines : gmap (list string) (list string))
  : option (gmap (list string) (list string)) :=
  match min_cut_sets with
  | [] => Some lines
  | it_min :: rest =>
      vec_line ← print_set it_min;
      McsToPrint rest
        (match lines !! it_min with
         | Some _ => lines
         | None => <[ it_min := vec_line ]> lines
         end)
  end.

End McsToPrint.

(** The text of a cut set written on one line: the names separated by
    a comma and a space, between braces. *)
Fixpoint listing (names : list string) : string :=
  match names with
  | [] => ""
  | [name] => name +:+ " "
  | name :: rest => name +:+ ", " +:+ listing rest
  end.

Definition one_line (names : list string) : string :=
  "{ " +:+ listing names +:+ "}".

Fixpoint concat_lines (lines : list string) : string :=
  match lines with
  | [] => ""
  | line :: rest => line +:+ concat_lines rest
  end.

End Reporter.

(** ** Well-formed objects of the uncertainty analysis *)

Section UncertaintyAnalysisInvariants.
Context `{BE : BasicEvents} `{!Accumulators} `{!ProbabilityAnalysisMethods}.

(** Whether the event at an index of [int_to_basic_] is constant. *)
Definition is_constant_at (events : list BasicEvent) (i : Z) : bool :=
  match at_index events i with
  | Some e => IsConstant e
  | None => false
  end.

(** The literals that [FilterUncertainEvents] takes out of a term:
    those of a constant event among [mcs_basic_events_]. *)
Definition is_stripped (p : ProbabilityAnalysis) (literal : Z) : bool :=
  bool_decide (Z.abs literal ∈ mcs_basic_events_ p)
  && is_constant_at (int_to_basic_ p) (Z.abs literal).

Definition in_range (n : nat) (i : Z) : Prop := 0 ≤ i < Z.of_nat n.

(** The subscripts used by [Sample] are inside the vectors: the two
    vectors indexed by event have the same size and the events of the
    cut sets are subscripts of them. *)
Definition indices_in_range (ua : UncertaintyAnalysis) : Prop :=
  let p := base ua in
  length (iprobs_ p) = length (int_to_basic_ p) ∧
  (∀ i, i ∈ mcs_basic_events_ p → in_range (length (int_to_basic_ p)) i).

(** The terms as [FilterUncertainEvents] leaves them. *)
Definition strip_all (p : ProbabilityAnalysis) (terms : list (list Z))
  : list (list Z) :=
  map (List.filter (λ literal, negb (is_stripped p literal))) terms.

Definition is_probability (prob : double) : bool :=
  PrimFloat.leb 0 prob && PrimFloat.leb prob 1.

(** Two properties, of event objects and of generator states, under
    which every draw is a probability: [Reset] keeps the first, and
    [SampleProbability] returns a value between 0 and 1 and keeps
    both. *)
Definition draws_probabilities (good_event : BasicEvent → Prop)
    (good_random : Random → Prop) : Prop :=
  (∀ e, good_event e → good_event (Reset e)) ∧
  (∀ e r, good_event e → good_random r →
     is_probability (SampleProbability e r).1.1 = true ∧
     good_event (SampleProbability e r).1.2 ∧
     good_random (SampleProbability e r).2).

(** What the trials of [Sample] keep: the sizes of the two vectors
    indexed by event, the two properties of the draws, and a constant
    factor for every term. *)
Definition trial_invariant (good_event : BasicEvent → Prop)
    (good_random : Random → Prop) (n : nat) (ua : UncertaintyAnalysis) : Prop :=
  length (int_to_basic_ (base ua)) = n ∧ length (iprobs_ (base ua)) = n ∧
  Forall good_event (int_to_basic_ (base ua)) ∧ good_random (random_ ua) ∧
  (length (pos_terms_ (base ua)) ≤ length (pos_const_ ua))%nat ∧
  (length (neg_terms_ (base ua)) ≤ length (neg_const_ ua))%nat.

End UncertaintyAnalysisInvariants.

(** ** Concrete objects used in the examples *)

Module Examples.

Definition node0 : Node.t := Node.Build 7 0 0 0 ∅.

Definition gate0 : IGate.t :=
  IGate.Build (Node.Build 12 0 0 0 {[ 10 ]}) kOrGate kNormalState (-1)
              {[ 1; -2; 11 ]} false.

(** A tree whose gates were indexed from 10 on, two of them stored. *)
Definition tree0 : IndexedFaultTree.t :=
  IndexedFaultTree.Build 10 10
    (<[ 10 := IGate.create 10 kAndGate ]>
       (<[ 11 := IGate.create 11 kOrGate ]> ∅)) 11.

Definition event (p : double) (distributed : bool) : SpecEvent.t :=
  SpecEvent.Build p distributed None.

Definition settings (cut : double) (approximation : string) (sums trials : Z)
  : Settings :=
  Build_Settings 20 cut sums approximation 1%float trials 0
                 true false true false.

(** Two basic events: [a] (index 1) with the fixed probability 1/8 and
    [b] (index 2) with nominal probability 1/4 and a distribution.
    Index 0 is the unused first slot of the vectors. *)
Definition database : ProbabilityAnalysis :=
  BuildProbabilityAnalysis spec_events "" ∅ {[ "a" := 1; "b" := 2 ]}
    [event 0 false; event 0.125 false; event 0.25 true]
    [0%float; 0.125%float; 0.25%float] [] ∅ [] [].

Definition tape : list double := [0.25; 0.5; 0.375; 0.75]%float.

Definition analysis (cut : double) (approximation : string) (sums trials : Z)
  : UncertaintyAnalysis :=
  create (settings cut approximation sums trials) database tape.

Definition mcs_a_or_b : gset (gset string) := {[ {[ "a" ]}; {[ "b" ]} ]}.

Definition mcs_b : gset (gset string) := {[ {[ "b" ]} ]}.

(** An object holding the results of four trials, before the
    statistics are calculated. *)
Definition sampled : UncertaintyAnalysis :=
  BuildUncertaintyAnalysis spec_events database (settings 0.0009765625 "" 3 4)
    20 20 0%float 0%float (0%float, 0%float) [] []
    [0.34375; 0.5625; 0.453125; 0.78125]%float [] [] [].

(** A second tape, and an object holding the results of its four
    trials: their sums, means and squared deviations are all doubles,
    so nothing is rounded before the square root. *)
Definition tape_exact : list double := [0.125; 0.875; 0.5; 0.25]%float.


(** The object as [Analyze] has it after [IndexMcs], before the
    cut-off is applied. *)
Definition indexed (min_cut_sets : gset (gset string))
    (ua : UncertaintyAnalysis) : UncertaintyAnalysis :=
  let ua := set_base (set_min_cut_sets min_cut_sets (base ua)) ua in
  set_base (IndexMcs min_cut_sets (base ua)) ua.

(** A tree with a gate stored right above the counter of created
    gates. *)
Definition crowded_tree : IndexedFaultTree.t :=
  IndexedFaultTree.Build 10 10 (<[ 12 := IGate.create 12 kAndGate ]> ∅) 11.


Definition primary_events : gmap string string :=
  {[ "pumpone" := "PumpOne"; "valvetwo" := "ValveTwo" ]}.

(** The object of [analysis], with the series of [a or b] in place. *)
Definition expanded : UncertaintyAnalysis :=
  BuildUncertaintyAnalysis spec_events
    (BuildProbabilityAnalysis spec_events "" mcs_a_or_b
       {[ "a" := 1; "b" := 2 ]}
       [event 0 false; event 0.125 false; event 0.25 true]
       [0%float; 0.125%float; 0.25%float] [[2]; [1]] {[ 1; 2 ]}
       [[1]; [2]] [[1; 2]])
    (settings 0.0009765625 "" 3 4)
    20 20 0%float 0%float (0%float, 0%float) [] [] [] [] [] tape.

End Examples.

(** * Properties *)

(** ** Node: visit times *)

Lemma assert_true b : assert b = Some tt ↔ b = true.
Proof. destruct b; simpl; split; congruence. Qed.

Lemma Visit_enter time n :
  0 < time → Node.visits_0 n = 0 →
  Node.Visit time n
  = Some (false, Node.set_visits time (Node.visits_1 n) (Node.visits_2 n) n).
Proof.
  intros Ht H0. unfold Node.Visit.
  apply Z.ltb_lt in Ht. rewrite Ht, H0. reflexivity.
Qed.

Lemma Visit_exit time n :
  0 < time → Node.visits_0 n ≠ 0 → Node.visits_1 n = 0 →
  Node.Visit time n
  = Some (false, Node.set_visits (Node.visits_0 n) time (Node.visits_2 n) n).
Proof.
  intros Ht H0 H1. unfold Node.Visit.
  apply Z.ltb_lt in Ht. apply Z.eqb_neq in H0. rewrite Ht, H0, H1. reflexivity.
Qed.

Lemma Visit_again time n :
  0 < time → Node.visits_0 n ≠ 0 → Node.visits_1 n ≠ 0 →
  Node.Visit time n
  = Some (true, Node.set_visits (Node.visits_0 n) (Node.visits_1 n) time n).
Proof.
  intros Ht H0 H1. unfold Node.Visit.
  apply Z.ltb_lt in Ht. apply Z.eqb_neq in H0, H1. rewrite Ht, H0, H1.
  reflexivity.
Qed.

Lemma last_cons_default {A} (l : list A) : ∀ x d d',
  List.last (x :: l) d = List.last (x :: l) d'.
Proof.
  induction l as [|y l IH]; intros x d d'; [reflexivity|].
  change (List.last (y :: l) d = List.last (y :: l) d'). apply IH.
Qed.

Lemma last_cons {A} (l : list A) x d :
  List.last (x :: l) d = List.last l x.
Proof.
  destruct l as [|y l]; [reflexivity|].
  change (List.last (y :: l) d = List.last (y :: l) x). apply last_cons_default.
Qed.

(** From the second visit on, every further call overwrites the last
    slot and answers [true]. *)
Lemma VisitAll_again ts : ∀ n,
  Forall (λ time, 0 < time) ts →
  Node.visits_0 n ≠ 0 → Node.visits_1 n ≠ 0 →
  Node.VisitAll ts n
  = Some (replicate (length ts) true,
          Node.set_visits (Node.visits_0 n) (Node.visits_1 n)
                          (List.last ts (Node.visits_2 n)) n).
Proof.
  induction ts as [|time ts IH]; intros n Hts H0 H1.
  - destruct n; reflexivity.
  - inversion Hts as [|? ? Ht Hts']; subst.
    cbn [Node.VisitAll]. rewrite (Visit_again _ _ Ht H0 H1). cbn [mbind option_bind].
    rewrite IH by (try assumption; simpl; lia).
    rewrite last_cons. destruct n; reflexivity.
Qed.

(** The outcome of any traversal of a cleared node, in closed form. *)
Lemma VisitAll_cleared n ts :
  Forall (λ time, 0 < time) ts →
  Node.visits_0 n = 0 → Node.visits_1 n = 0 → Node.visits_2 n = 0 →
  Node.VisitAll ts n
  = Some (match ts with
          | [] => []
          | [_] => [false]
          | _ :: _ :: rest => false :: false :: replicate (length rest) true
          end,
          Node.set_visits (nth 0 ts 0) (nth 1 ts 0)
                          (List.last (drop 2 ts) 0) n).
Proof.
  intros Hts H0 H1 H2.
  destruct ts as [|t1 [|t2 rest]].
  - destruct n; cbn in *; subst; reflexivity.
  - inversion Hts as [|? ? Ht1 _]; subst.
    cbn [Node.VisitAll]. rewrite (Visit_enter _ _ Ht1 H0). cbn.
    rewrite H1, H2. reflexivity.
  - inversion Hts as [|? ? Ht1 Hts']; subst.
    inversion Hts' as [|? ? Ht2 Hrest]; subst.
    cbn [Node.VisitAll]. rewrite (Visit_enter _ _ Ht1 H0). cbn [mbind option_bind].
    rewrite Visit_exit by (cbn; try assumption; lia). cbn [mbind option_bind].
    rewrite VisitAll_again by (cbn; try assumption; lia).
    cbn. rewrite H2. reflexivity.
Qed.

Lemma last_positive (l : list Z) : ∀ x d,
  Forall (λ time, 0 < time) (x :: l) → 0 < List.last (x :: l) d.
Proof.
  induction l as [|y l IH]; intros x d Hl; inversion Hl; subst.
  - assumption.
  - change (0 < List.last (y :: l) d). apply IH. assumption.
Qed.

(** C3 (amended): on a node whose three visit slots are zero, a
    sequence of calls [Visit(t1)], [Visit(t2)], ... with positive times
    never fires the assertion, stores the first time in the enter slot,
    the second in the exit slot and, from the third call on, the time of
    the latest call in the revisit slot; the call number [k + 1] returns
    true exactly when it is the third or a later one. *)
Theorem Visit_fills_slots_in_order (n : Node.t) (ts : list Z) :
  Forall (λ time, 0 < time) ts →
  Node.visits_0 n = 0 → Node.visits_1 n = 0 → Node.visits_2 n = 0 →
  ∃ rets n',
    Node.VisitAll ts n = Some (rets, n') ∧
    length rets = length ts ∧
    Node.EnterTime n' = nth 0 ts 0 ∧
    Node.ExitTime n' = nth 1 ts 0 ∧
    Node.visits_2 n' = List.last (drop 2 ts) 0 ∧
    (∀ k b, rets !! k = Some b → (b = true ↔ (2 ≤ k)%nat)).
Proof.
  intros Hts H0 H1 H2.
  eexists _, _. split; [apply VisitAll_cleared; assumption|].
  split; [|split; [reflexivity|split; [reflexivity|split; [reflexivity|]]]].
  - destruct ts as [|t1 [|t2 rest]]; cbn; rewrite ?length_replicate; reflexivity.
  - intros k b Hk.
    destruct ts as [|t1 [|t2 rest]]; [discriminate| |].
    + destruct k; cbn in Hk; [|discriminate].
      injection Hk as <-. split; [discriminate|lia].
    + destruct k as [|[|k]]; cbn in Hk.
      * injection Hk as <-. split; [discriminate|lia].
      * injection Hk as <-. split; [discriminate|lia].
      * apply lookup_replicate in Hk as [-> _]. split; [lia|reflexivity].
Qed.

Lemma Visit_fills_slots_in_order_witness :
  ∃ rets n',
    Node.VisitAll [3; 5; 8; 9] Examples.node0 = Some (rets, n') ∧
    length rets = 4%nat ∧
    Node.EnterTime n' = 3 ∧
    Node.ExitTime n' = 5 ∧
    Node.visits_2 n' = 9 ∧
    (∀ k b, rets !! k = Some b → (b = true ↔ (2 ≤ k)%nat)).
Proof.
  apply (Visit_fills_slots_in_order Examples.node0 [3; 5; 8; 9]);
    [repeat constructor; lia | reflexivity | reflexivity | reflexivity].
Defined.

(** C3, as stated, fails on a fourth visit: the call returns true
    although it is not the third visit of the node. *)
Lemma Visit_fourth_call_also_true :
  ∃ rets n',
    Node.VisitAll [1; 2; 3; 4] Examples.node0 = Some (rets, n') ∧
    ¬ (∀ k b, rets !! k = Some b → (b = true ↔ k = 2%nat)).
Proof.
  eexists _, _. split; [reflexivity|].
  intros H. specialize (H 3%nat true eq_refl).
  destruct H as [H _]. specialize (H eq_refl). discriminate.
Qed.

(** C10: [LastVisit] is the revisit slot when the node was revisited
    and the exit slot otherwise, and it is 0 only if the exit slot is 0;
    after a traversal of a cleared node with positive times the node is
    revisited exactly from the third visit on, [LastVisit] is then the
    time of the latest visit, it is the exit time (the second slot) for
    at most two visits, and it is 0 only when there was no second
    visit. *)
Theorem LastVisit_latest_time (n : Node.t) :
  (Node.Revisited n = true → Node.LastVisit n = Node.visits_2 n) ∧
  (Node.Revisited n = false → Node.LastVisit n = Node.ExitTime n) ∧
  (Node.LastVisit n = 0 → Node.ExitTime n = 0) ∧
  (∀ ts, Forall (λ time, 0 < time) ts →
     ∃ rets n',
       Node.VisitAll ts (Node.ClearVisits n) = Some (rets, n') ∧
       (Node.Revisited n' = true ↔ (3 ≤ length ts)%nat) ∧
       ((3 ≤ length ts)%nat → Node.LastVisit n' = List.last ts 0) ∧
       ((length ts ≤ 2)%nat →
          Node.LastVisit n' = Node.ExitTime n' ∧ Node.ExitTime n' = nth 1 ts 0) ∧
       (Node.LastVisit n' = 0 ↔ (length ts ≤ 1)%nat)).
Proof.
  unfold Node.Revisited, Node.LastVisit, Node.ExitTime.
  split; [|split; [|split]].
  - destruct (Node.visits_2 n =? 0); cbn; [discriminate|reflexivity].
  - destruct (Node.visits_2 n =? 0); cbn; [reflexivity|discriminate].
  - destruct (Node.visits_2 n =? 0) eqn:E; cbn; [tauto|].
    intros H. apply Z.eqb_neq in E. contradiction.
  - intros ts Hts. eexists _, _.
    split; [apply VisitAll_cleared; [assumption|reflexivity..]|].
    destruct ts as [|t1 [|t2 [|t3 rest]]]; cbn [nth drop length Node.visits_2
      Node.visits_1 Node.set_visits].
    + cbn. repeat split; intros; try lia; try discriminate.
    + cbn. repeat split; intros; try lia; try discriminate.
    + inversion Hts as [|? ? _ Hts']; inversion Hts' as [|? ? Ht2 _]; subst.
      cbn. repeat split; intros; try lia; try discriminate.
    + inversion Hts as [|? ? _ Hts']; inversion Hts' as [|? ? _ Hts3]; subst.
      pose proof (last_positive rest t3 0 Hts3) as Hlast.
      change (List.last (t1 :: t2 :: t3 :: rest) 0) with (List.last (t3 :: rest) 0).
      revert Hlast. generalize (List.last (t3 :: rest) 0). intros L HL.
      destruct (L =? 0) eqn:E; [apply Z.eqb_eq in E; lia|].
      cbn. repeat split; intros; try lia; try reflexivity.
Qed.

Lemma LastVisit_latest_time_witness :
  Node.LastVisit (Node.Build 7 3 5 0 ∅) = 5 ∧
  Node.LastVisit (Node.Build 7 3 5 9 ∅) = 9 ∧
  ∃ rets n',
    Node.VisitAll [3; 5; 8; 9] (Node.ClearVisits Examples.node0) = Some (rets, n') ∧
    Node.LastVisit n' = 9.
Proof.
  split; [|split].
  - apply (LastVisit_latest_time (Node.Build 7 3 5 0 ∅)). reflexivity.
  - apply (LastVisit_latest_time (Node.Build 7 3 5 9 ∅)). reflexivity.
  - destruct (LastVisit_latest_time Examples.node0) as (_ & _ & _ & H).
    destruct (H [3; 5; 8; 9]) as (rets & n' & Hrun & _ & Hlast & _);
      [repeat constructor; lia|].
    exists rets, n'. split; [exact Hrun|]. apply Hlast. simpl. lia.
Defined.

(** ** IGate: terminal transitions *)

Lemma State_eqb_eq a b : State_eqb a b = true ↔ a = b.
Proof. destruct a, b; cbn; split; congruence. Qed.

Lemma apply_unfold tr g :
  IGate.apply tr g
  = (assert (State_eqb (IGate.state_ g) kNormalState) ;;
     Some (IGate.set_state_children (IGate.target tr) ∅ g)).
Proof. destruct tr; reflexivity. Qed.

(** C8: [Nullify] and [MakeUnity] pass their assertion exactly on a gate
    in the normal state; such a call sets the null (respectively unity)
    state, leaves the set of children empty and keeps the rest of the
    gate; on the resulting gate, as on any gate that is not in the
    normal state, the assertion of either transition fires. *)
Theorem terminal_transitions_one_shot (tr : IGate.transition) (g : IGate.t) :
  (IGate.state g = kNormalState →
     ∃ g', IGate.apply tr g = Some g' ∧
           IGate.state g' = IGate.target tr ∧
           IGate.state g' ≠ kNormalState ∧
           IGate.children g' = ∅ ∧
           IGate.node g' = IGate.node g ∧ IGate.type g' = IGate.type g ∧
           ∀ tr', IGate.apply tr' g' = None) ∧
  (IGate.state g ≠ kNormalState → IGate.apply tr g = None).
Proof.
  split.
  - intros Hn. eexists. rewrite apply_unfold.
    unfold IGate.state in Hn. rewrite Hn. cbn.
    split; [reflexivity|].
    repeat split; try (destruct tr; reflexivity; fail).
    + destruct tr; discriminate.
    + intros tr'. rewrite apply_unfold. destruct tr; reflexivity.
  - intros Hn. rewrite apply_unfold. unfold IGate.state in Hn.
    destruct (IGate.state_ g); [contradiction|reflexivity..].
Qed.

Lemma terminal_transitions_one_shot_witness :
  (∃ g', IGate.Nullify Examples.gate0 = Some g' ∧
         IGate.state g' = kNullState ∧
         IGate.state g' ≠ kNormalState ∧
         IGate.children g' = ∅ ∧
         IGate.node g' = IGate.node Examples.gate0 ∧
         IGate.type g' = IGate.type Examples.gate0 ∧
         ∀ tr', IGate.apply tr' g' = None) ∧
  IGate.MakeUnity (IGate.set_state_children kNullState ∅ Examples.gate0) = None.
Proof.
  split.
  - apply (terminal_transitions_one_shot IGate.DoNullify Examples.gate0).
    reflexivity.
  - apply (terminal_transitions_one_shot IGate.DoMakeUnity
             (IGate.set_state_children kNullState ∅ Examples.gate0)).
    discriminate.
Defined.

(** ** Config: Boolean attributes *)

Lemma GetBoolFromString_rejects flag :
  Config.GetBoolFromString flag = None
  ↔ ¬ (flag = "1" ∨ flag = "true" ∨ flag = "0" ∨ flag = "false").
Proof.
  unfold Config.GetBoolFromString.
  destruct (String.eqb_spec flag "1") as [->|H1]; [cbn; intuition discriminate|].
  destruct (String.eqb_spec flag "true") as [->|H2]; [cbn; intuition discriminate|].
  destruct (String.eqb_spec flag "0") as [->|H3]; [cbn; intuition discriminate|].
  destruct (String.eqb_spec flag "false") as [->|H4]; [cbn; intuition discriminate|].
  cbn. intuition.
Qed.

(** The comparison is on the exact characters. *)
Example GetBoolFromString_case_sensitive :
  Config.GetBoolFromString "True" = None ∧
  Config.GetBoolFromString "FALSE" = None.
Proof. split; reflexivity. Qed.

(** C9: on each of the accepted strings [1], [true], [0], [false] the
    conversion returns; the result is true exactly for [1] and [true],
    and false exactly for [0] and [false]. *)
Theorem GetBoolFromString_accepted (flag : string) :
  flag ∈ ["1"; "true"; "0"; "false"] →
  (Config.GetBoolFromString flag = Some true ↔ flag = "1" ∨ flag = "true") ∧
  (Config.GetBoolFromString flag = Some false ↔ flag = "0" ∨ flag = "false").
Proof.
  intros Hin. repeat (apply elem_of_cons in Hin as [->|Hin]);
    try (apply elem_of_nil in Hin; contradiction);
    cbn; split; (split; [intros H; try discriminate H; auto
                        |intros [H|H]; try discriminate H; reflexivity]).
Qed.

Lemma GetBoolFromString_accepted_witness :
  (Config.GetBoolFromString "true" = Some true ↔ "true" = "1" ∨ "true" = "true") ∧
  (Config.GetBoolFromString "true" = Some false ↔ "true" = "0" ∨ "true" = "false").
Proof.
  apply (GetBoolFromString_accepted "true").
  apply list_elem_of_In. simpl. tauto.
Defined.

(** ** IndexedFaultTree: gate indices *)


Lemma CreateGate_next type tree :
  IndexedFaultTree.new_gate_index_ tree < INT_MAX →
  IndexedFaultTree.well_indexed tree →
  let i := IndexedFaultTree.new_gate_index_ tree + 1 in
  IndexedFaultTree.CreateGate type tree
  = Some (IGate.create i type,
          IndexedFaultTree.Build
            (IndexedFaultTree.top_event_index_ tree)
            (IndexedFaultTree.kGateIndex_ tree)
            (<[ i := IGate.create i type ]> (IndexedFaultTree.indexed_gates_ tree))
            i)
  ∧ IndexedFaultTree.indexed_gates_ tree !! i = None.
Proof.
  intros Hroom Hwf i.
  assert (Hfresh : IndexedFaultTree.indexed_gates_ tree !! i = None).
  { destruct (IndexedFaultTree.indexed_gates_ tree !! i) as [g|] eqn:E;
      [|reflexivity].
    apply Hwf in E as [_ E]. subst i. lia. }
  split; [|exact Hfresh].
  unfold IndexedFaultTree.CreateGate.
  apply Z.ltb_lt in Hroom. rewrite Hroom. cbn [assert mbind option_bind].
  unfold IndexedFaultTree.map_insert.
  change (IGate.index (IGate.create (IndexedFaultTree.new_gate_index_ tree + 1) type))
    with i.
  fold i. rewrite Hfresh. reflexivity.
Qed.





Lemma tree0_well_indexed : IndexedFaultTree.well_indexed Examples.tree0.
Proof.
  intros k g Hk. cbn in Hk.
  destruct (decide (10 = k)) as [<-|H10].
  - rewrite lookup_insert_eq in Hk. injection Hk as <-. split; [reflexivity|cbn; lia].
  - rewrite lookup_insert_ne in Hk by assumption.
    destruct (decide (11 = k)) as [<-|H11].
    + rewrite lookup_insert_eq in Hk. injection Hk as <-. split; [reflexivity|cbn; lia].
    + rewrite lookup_insert_ne in Hk by assumption. discriminate.
Defined.



(** ** UncertaintyAnalysis *)


Section UncertaintyAnalysisProperties.
Context `{BE : BasicEvents} `{!Accumulators} `{!ProbabilityAnalysisMethods}.

Lemma is_unity_iff (min_cut_sets : gset (gset string)) :
  is_unity min_cut_sets = true ↔ min_cut_sets = {[ ∅ ]}.
Proof.
  unfold is_unity. split.
  - intros Hu. apply andb_true_iff in Hu as [Hsize Hfirst].
    apply bool_decide_eq_true in Hsize.
    apply size_1_elem_of in Hsize as [s Hs]. apply leibniz_equiv in Hs.
    subst min_cut_sets. rewrite elements_singleton in Hfirst.
    apply bool_decide_eq_true in Hfirst. subst s. reflexivity.
  - intros ->. rewrite size_singleton, elements_singleton.
    rewrite !bool_decide_eq_true_2 by reflexivity. reflexivity.
Qed.

Lemma one_empty_set (min_cut_sets : gset (gset string)) :
  size min_cut_sets = 1%nat → ∅ ∈ min_cut_sets → min_cut_sets = {[ ∅ ]}.
Proof.
  intros Hsize Hin. apply size_1_elem_of in Hsize as [s Hs].
  apply leibniz_equiv in Hs. subst. apply elem_of_singleton in Hin.
  subst. reflexivity.
Qed.

(** C1: when the family of minimal cut sets is exactly the empty set
    alone, [Analyze] returns with mean 1, sigma 0 and the interval
    [(1, 1)]; it appends the single point [(1, 1)] to the distribution
    (which is that point alone on an object that held none) and
    samples nothing: the sampled results, the generator, the events
    and their probabilities and the series terms are as before. *)
Theorem Analyze_unity_case (min_cut_sets : gset (gset string))
    (ua : UncertaintyAnalysis) :
  size min_cut_sets = 1%nat → ∅ ∈ min_cut_sets →
  ∃ ua',
    Analyze min_cut_sets ua = Some ua' ∧
    mean_ ua' = 1%float ∧ sigma_ ua' = 0%float ∧
    confidence_interval_ ua' = (1%float, 1%float) ∧
    distribution_ ua' = distribution_ ua ++ [(1%float, 1%float)] ∧
    (distribution_ ua = [] → distribution_ ua' = [(1%float, 1%float)]) ∧
    sampled_results_ ua' = sampled_results_ ua ∧
    random_ ua' = random_ ua ∧
    int_to_basic_ (base ua') = int_to_basic_ (base ua) ∧
    iprobs_ (base ua') = iprobs_ (base ua) ∧
    pos_terms_ (base ua') = pos_terms_ (base ua) ∧
    neg_terms_ (base ua') = neg_terms_ (base ua).
Proof.
  intros Hsize Hin. rewrite (one_empty_set _ Hsize Hin).
  unfold Analyze. cbn [base set_base min_cut_sets_ set_min_cut_sets].
  rewrite (proj2 (is_unity_iff _) eq_refl).
  eexists. split; [reflexivity|]. cbn.
  repeat split. intros ->. reflexivity.
Qed.

Lemma fold_iset_elem (keep : list Z → bool) (l : list (list Z)) :
  ∀ (acc : gset (list Z)) S,
    S ∈ fold_left (λ (iset : gset (list Z)) it_min,
                     if keep it_min then {[ it_min ]} ∪ iset else iset) l acc
    ↔ S ∈ acc ∨ (S ∈ l ∧ keep S = true).
Proof.
  induction l as [|x l IH]; intros acc S; cbn [fold_left].
  - split; [auto|]. intros [?|[Hin _]]; [assumption|].
    apply elem_of_nil in Hin. contradiction.
  - rewrite IH. rewrite elem_of_cons.
    destruct (keep x) eqn:E.
    + rewrite elem_of_union, elem_of_singleton.
      split; [intros [[->|?]|[? ?]]; auto|].
      intros [?|[[->|?] ?]]; auto.
    + split; [intros [?|[? ?]]; auto|].
      intros [?|[[->|?] ?]]; auto. congruence.
Qed.

(** C2 (amended): a cut set of [imcs_] is retained in [iset] exactly
    when its [ProbAnd] is strictly greater than [cut_off]; a cut set
    whose [ProbAnd] equals [cut_off] is discarded like one below it. *)
Theorem build_iset_keeps_above_cut_off (ua : UncertaintyAnalysis) (S : list Z) :
  S ∈ build_iset ua
  ↔ S ∈ imcs_ (base ua)
    ∧ PrimFloat.ltb (cut_off (kSettings_ ua)) (ProbAnd S (base ua)) = true.
Proof.
  unfold build_iset.
  rewrite (fold_iset_elem
             (λ it_min, PrimFloat.ltb (cut_off (kSettings_ ua))
                                      (ProbAnd it_min (base ua)))).
  split; [intros [Hin|?]; [|assumption]|auto].
  apply elem_of_empty in Hin. contradiction.
Qed.

Lemma Analyze_general (min_cut_sets : gset (gset string))
    (ua : UncertaintyAnalysis) :
  is_unity min_cut_sets = false →
  Analyze min_cut_sets ua
  = analysis_with_depth (series_depth (kSettings_ ua)) min_cut_sets ua.
Proof.
  intros Hgen. unfold Analyze, analysis_with_depth.
  cbn [base set_base min_cut_sets_ set_min_cut_sets kSettings_].
  rewrite Hgen. reflexivity.
Qed.

(** C4: outside the unity case, with the approximation set to
    [rare-event] the depth handed to [ProbOr] is 1 whatever [num_sums]
    is, and the analysis is the one of a series of depth 1; with any
    other setting the depth is the configured [num_sums]. *)
Theorem Analyze_series_depth (min_cut_sets : gset (gset string))
    (ua : UncertaintyAnalysis) :
  is_unity min_cut_sets = false →
  (approx (kSettings_ ua) = "rare-event" →
     series_depth (kSettings_ ua) = 1 ∧
     Analyze min_cut_sets ua = analysis_with_depth 1 min_cut_sets ua) ∧
  (approx (kSettings_ ua) ≠ "rare-event" →
     series_depth (kSettings_ ua) = num_sums (kSettings_ ua) ∧
     Analyze min_cut_sets ua
     = analysis_with_depth (num_sums (kSettings_ ua)) min_cut_sets ua).
Proof.
  intros Hgen. rewrite (Analyze_general _ _ Hgen). unfold series_depth.
  destruct (String.eqb_spec (approx (kSettings_ ua)) "rare-event") as [E|E].
  - split; [auto|contradiction].
  - split; [contradiction|auto].
Qed.


(** C6 (amended): the density histogram of the accumulator has
    [num_bins + 2 = 22] entries, the first for the underflow and the
    last for the overflow bin; [CalculateStatistics] drops the first
    one only: it appends the entries 1 to 21 of the histogram, in
    their order and the overflow bin included, so it reports
    [num_bins + 1 = 21] entries. *)
Theorem CalculateStatistics_distribution_size (ua : UncertaintyAnalysis) :
  length (acc_density 20 (num_trials (kSettings_ ua)) (sampled_results_ ua))
  = 22%nat →
  let hist := acc_density 20 (num_trials (kSettings_ ua)) (sampled_results_ ua) in
  distribution_ (CalculateStatistics ua) = distribution_ ua ++ drop 1 hist
  ∧ (∀ k : nat,
       distribution_ (CalculateStatistics ua) !! (length (distribution_ ua) + k)%nat
       = hist !! S k)
  ∧ (∀ entry, distribution_ (CalculateStatistics ua)
              !! (length (distribution_ ua) + 20)%nat = Some entry ↔
              last hist = Some entry)
  ∧ length (distribution_ (CalculateStatistics ua))
    = (length (distribution_ ua) + 21)%nat
  ∧ (distribution_ ua = [] → num_bins_ ua = 20 →
     Z.of_nat (length (distribution_ (CalculateStatistics ua)))
     = num_bins_ ua + 1).
Proof.
  intros Hhist hist. cbn. fold hist.
  assert (Hk : ∀ k : nat,
             (distribution_ ua ++ drop 1 hist) !! (length (distribution_ ua) + k)%nat
             = hist !! S k).
  { intros k. rewrite lookup_app_r by lia.
    replace (length (distribution_ ua) + k - length (distribution_ ua))%nat
      with k by lia.
    rewrite lookup_drop. reflexivity. }
  split; [reflexivity|]. split; [exact Hk|]. split.
  - intros entry. rewrite Hk, last_lookup. fold hist in Hhist. rewrite Hhist.
    reflexivity.
  - rewrite length_app, length_drop. fold hist in Hhist. rewrite Hhist.
    split; [reflexivity|]. intros -> ->. reflexivity.
Qed.

End UncertaintyAnalysisProperties.

Section SamplingProperties.
Context `{BE : BasicEvents} `{!Accumulators} `{!ProbabilityAnalysisMethods}.

Lemma trial_pushes_one basic_events (ua ua' : UncertaintyAnalysis) :
  trial basic_events ua = Some ua' →
  kSettings_ ua' = kSettings_ ua ∧
  distribution_ ua' = distribution_ ua ∧
  ∃ x, sampled_results_ ua' = sampled_results_ ua ++ [x].
Proof.
  unfold trial. intros Ht.
  destruct (reset_events _ _) as [events|]; [|discriminate].
  cbn [mbind option_bind] in Ht.
  destruct (sample_events _ _ _ _) as [[[events' iprobs] r]|]; [|discriminate].
  cbn [mbind option_bind] in Ht.
  apply bind_Some in Ht as (pos & _ & Ht).
  apply bind_Some in Ht as (neg & _ & Ht).
  injection Ht as <-. cbn. eauto.
Qed.

Lemma trials_push n basic_events : ∀ (ua ua' : UncertaintyAnalysis),
  trials n basic_events ua = Some ua' →
  kSettings_ ua' = kSettings_ ua ∧
  distribution_ ua' = distribution_ ua ∧
  ∃ xs, length xs = n ∧ sampled_results_ ua' = sampled_results_ ua ++ xs.
Proof.
  induction n as [|n IH]; intros ua ua' Hn; cbn [trials] in Hn.
  - injection Hn as <-. split; [reflexivity|]. split; [reflexivity|].
    exists []. rewrite app_nil_r. auto.
  - destruct (trial basic_events ua) as [ua1|] eqn:E1; [|discriminate].
    cbn [mbind option_bind] in Hn.
    apply trial_pushes_one in E1 as (Hs1 & Hd1 & x & Hx).
    apply IH in Hn as (Hs & Hd & xs & Hlen & Hxs).
    split; [congruence|]. split; [congruence|].
    exists (x :: xs). split; [cbn; lia|].
    rewrite Hxs, Hx, <- app_assoc. reflexivity.
Qed.

(** [Sample] runs [num_trials] trials, each adding one result. *)
Lemma Sample_pushes_num_trials (ua ua' : UncertaintyAnalysis) :
  Sample ua = Some ua' →
  kSettings_ ua' = kSettings_ ua ∧
  distribution_ ua' = distribution_ ua ∧
  ∃ xs, length xs = Z.to_nat (num_trials (kSettings_ ua)) ∧
        sampled_results_ ua' = sampled_results_ ua ++ xs.
Proof.
  unfold Sample, FilterUncertainEvents. intros Hs.
  destruct (split_events _ _ _ _) as [[const_events basic_events]|];
    [|discriminate].
  cbn [mbind option_bind] in Hs.
  destruct (strip_terms _ _ (pos_terms_ _)) as [[pos pos_c]|]; [|discriminate].
  cbn [mbind option_bind] in Hs.
  destruct (strip_terms _ _ (neg_terms_ _)) as [[neg neg_c]|]; [|discriminate].
  cbn [mbind option_bind] in Hs.
  apply trials_push in Hs. exact Hs.
Qed.

(** After the trials of a general analysis the object holds one
    sampled result per trial on top of those it held, and the
    reported statistics are those of [CalculateStatistics] on them. *)
Lemma Analyze_statistics_after_trials (min_cut_sets : gset (gset string))
    (ua ua' : UncertaintyAnalysis) :
  is_unity min_cut_sets = false →
  Analyze min_cut_sets ua = Some ua' →
  let root := PrimFloat.sqrt (double_of_int (num_trials (kSettings_ ua))) in
  Z.of_nat (length (sampled_results_ ua'))
  = Z.of_nat (length (sampled_results_ ua)) + Z.max 0 (num_trials (kSettings_ ua)) ∧
  mean_ ua' = acc_mean (sampled_results_ ua') ∧
  sigma_ ua' = PrimFloat.sqrt (acc_variance (sampled_results_ ua')) ∧
  confidence_interval_ ua'
  = ((mean_ ua' - sigma_ ua' * 0x1.f5c28f5c28f5cp+0 / root)%float,
     (mean_ ua' + sigma_ ua' * 0x1.f5c28f5c28f5cp+0 / root)%float).
Proof.
  intros Hgen Hrun root. rewrite (Analyze_general _ _ Hgen) in Hrun.
  unfold analysis_with_depth in Hrun.
  destruct (Sample _) as [ua1|] eqn:Es; [|discriminate].
  injection Hrun as <-.
  apply Sample_pushes_num_trials in Es as (Hset & _ & xs & Hlen & Hxs).
  cbn in Hset, Hlen, Hxs. subst root. cbn. rewrite Hset.
  split; [|repeat split].
  rewrite Hxs, length_app, Hlen. lia.
Qed.

End SamplingProperties.

(** The density histogram of the accumulator model has two entries more
    than bins. *)
Lemma Boost_density_length num_bins cache_size samples :
  length (Boost.density num_bins cache_size samples)
  = (Z.to_nat num_bins + 2)%nat.
Proof. unfold Boost.density. rewrite length_map, length_seq. reflexivity. Qed.

(** ** The analysis run on the example database *)

Lemma Analyze_unity_case_witness :
  ∃ ua',
    Analyze {[ ∅ ]} (Examples.analysis 0.0009765625 "" 3 4) = Some ua' ∧
    mean_ ua' = 1%float ∧ sigma_ ua' = 0%float ∧
    confidence_interval_ ua' = (1%float, 1%float) ∧
    distribution_ ua'
    = distribution_ (Examples.analysis 0.0009765625 "" 3 4) ++ [(1%float, 1%float)] ∧
    (distribution_ (Examples.analysis 0.0009765625 "" 3 4) = [] →
     distribution_ ua' = [(1%float, 1%float)]) ∧
    sampled_results_ ua' = sampled_results_ (Examples.analysis 0.0009765625 "" 3 4) ∧
    random_ ua' = random_ (Examples.analysis 0.0009765625 "" 3 4) ∧
    int_to_basic_ (base ua')
    = int_to_basic_ (base (Examples.analysis 0.0009765625 "" 3 4)) ∧
    iprobs_ (base ua') = iprobs_ (base (Examples.analysis 0.0009765625 "" 3 4)) ∧
    pos_terms_ (base ua')
    = pos_terms_ (base (Examples.analysis 0.0009765625 "" 3 4)) ∧
    neg_terms_ (base ua')
    = neg_terms_ (base (Examples.analysis 0.0009765625 "" 3 4)).
Proof.
  apply (Analyze_unity_case {[ ∅ ]} (Examples.analysis 0.0009765625 "" 3 4)).
  - apply size_singleton.
  - apply elem_of_singleton. reflexivity.
Defined.

(** C2, as stated, fails for a cut set whose probability equals the
    cut-off: with [cut_off = 1/4] and the single cut set [{b}] of
    probability [1/4], the cut set is not below the cut-off and yet it
    is not retained. *)
Lemma cut_set_at_cut_off_is_discarded :
  let ua := Examples.indexed Examples.mcs_b (Examples.analysis 0.25 "" 3 4) in
  ¬ (∀ S, S ∈ imcs_ (base ua) →
          (S ∈ build_iset ua
           ↔ PrimFloat.ltb (ProbAnd S (base ua)) (cut_off (kSettings_ ua)) = false)).
Proof.
  intros ua Hclaim.
  assert (Himcs : imcs_ (base ua) = [[2]]) by (vm_compute; reflexivity).
  assert (Hin : [2] ∈ imcs_ (base ua)) by (rewrite Himcs; apply elem_of_cons; left; reflexivity).
  destruct (Hclaim [2] Hin) as [_ Hkeep].
  assert (Hnot_below :
            PrimFloat.ltb (ProbAnd [2] (base ua)) (cut_off (kSettings_ ua)) = false)
    by (vm_compute; reflexivity).
  specialize (Hkeep Hnot_below). unfold build_iset in Hkeep.
  apply fold_iset_elem in Hkeep as [Hempty|[_ Habove]].
  - apply elem_of_empty in Hempty. contradiction.
  - vm_compute in Habove. discriminate.
Qed.

Lemma Analyze_series_depth_witness :
  let ua := Examples.analysis 0.0009765625 "rare-event" 3 4 in
  series_depth (kSettings_ ua) = 1 ∧
  Analyze Examples.mcs_a_or_b ua = analysis_with_depth 1 Examples.mcs_a_or_b ua.
Proof.
  intros ua.
  assert (Hgen : is_unity Examples.mcs_a_or_b = false) by (vm_compute; reflexivity).
  destruct (Analyze_series_depth Examples.mcs_a_or_b ua Hgen) as [Hrare _].
  apply Hrare. reflexivity.
Defined.

(** With [num_sums = 3] the series of [a or b] has the second-order
    term [a and b]; under [rare-event] only the first-order terms are
    built.  (The constant event [a] is factored out of the terms.) *)
Example series_terms_by_approximation :
  (pos_terms_ ∘ base <$> Analyze Examples.mcs_a_or_b
                           (Examples.analysis 0.0009765625 "" 3 4),
   neg_terms_ ∘ base <$> Analyze Examples.mcs_a_or_b
                           (Examples.analysis 0.0009765625 "" 3 4))
  = (Some [[]; [2]], Some [[2]])
  ∧
  (pos_terms_ ∘ base <$> Analyze Examples.mcs_a_or_b
                           (Examples.analysis 0.0009765625 "rare-event" 3 4),
   neg_terms_ ∘ base <$> Analyze Examples.mcs_a_or_b
                           (Examples.analysis 0.0009765625 "rare-event" 3 4))
  = (Some [[]; [2]], Some []).
Proof. split; vm_compute; reflexivity. Qed.

(** Four trials of [a or b]: [b] takes the values of the tape and each
    result is [1/8 + b - b/8]. *)
Example sampled_results_of_four_trials :
  sampled_results_ <$> Analyze Examples.mcs_a_or_b
                         (Examples.analysis 0.0009765625 "" 3 4)
  = Some [0.34375; 0.5625; 0.453125; 0.78125]%float.
Proof. vm_compute. reflexivity. Qed.

Lemma CalculateStatistics_distribution_size_witness :
  let hist := Boost.density 20 4 (sampled_results_ Examples.sampled) in
  let reported := distribution_ (CalculateStatistics Examples.sampled) in
  reported = drop 1 hist ∧
  hist !! 0%nat = Some (0x1.499999999999ap-2, 0)%float ∧
  reported !! 0%nat = hist !! 1%nat ∧
  reported !! 0%nat = Some (0.34375, 0.25)%float ∧
  (∀ entry, reported !! 20%nat = Some entry ↔ last hist = Some entry) ∧
  reported !! 20%nat = Some (0.78125, 0.25)%float ∧
  length reported = 21%nat ∧
  Z.of_nat (length reported) = num_bins_ Examples.sampled + 1.
Proof.
  intros hist reported.
  destruct (CalculateStatistics_distribution_size Examples.sampled)
    as (Heq & Hk & Hlast & Hlen & Hbins); [apply Boost_density_length|].
  split; [exact Heq|]. split; [vm_compute; reflexivity|].
  split; [exact (Hk 0%nat)|].
  split; [rewrite (Hk 0%nat : reported !! 0%nat = hist !! 1%nat);
          vm_compute; reflexivity|].
  split; [exact Hlast|].
  split; [apply Hlast; vm_compute; reflexivity|].
  split; [exact Hlen|]. apply Hbins; reflexivity.
Defined.


(** The four trials on the second tape, from the minimal cut sets to
    the reported statistics. *)
Example statistics_after_four_trials :
  (λ ua', (sampled_results_ ua', mean_ ua', sigma_ ua', confidence_interval_ ua'))
    <$> Analyze Examples.mcs_a_or_b
          (create (Examples.settings 0.0009765625 "" 3 4) Examples.database
                  Examples.tape_exact)
  = Some ([0.234375; 0.890625; 0.5625; 0.34375]%float,
          0.5078125%float, 0x1.009fce1f27ab5p-2%float,
          (0x1.0c821c6696907p-2, 0x1.81bef1ccb4b7cp-1)%float).
Proof. vm_compute. reflexivity. Qed.

Example distribution_size_after_four_trials :
  (λ ua', (num_bins_ ua', length (distribution_ ua')))
    <$> Analyze Examples.mcs_a_or_b (Examples.analysis 0.0009765625 "" 3 4)
  = Some (20, 21%nat).
Proof. vm_compute. reflexivity. Qed.

(** C6, as stated, fails: after four trials of [a or b] the reported
    distribution has 21 entries, one more than [num_bins]. *)
Lemma distribution_has_one_entry_more_than_bins :
  ∃ ua',
    Analyze Examples.mcs_a_or_b (Examples.analysis 0.0009765625 "" 3 4) = Some ua' ∧
    num_bins_ ua' = 20 ∧
    length (distribution_ ua') = 21%nat ∧
    Z.of_nat (length (distribution_ ua')) ≠ num_bins_ ua'.
Proof.
  pose proof distribution_size_after_four_trials as Hrun.
  destruct (Analyze _ _) as [ua'|]; [|discriminate].
  cbn in Hrun. injection Hrun as Hbins Hsize.
  exists ua'. rewrite Hbins, Hsize. repeat split. lia.
Qed.

(** * Further properties *)

(** ** Node: traversal bookkeeping *)

Lemma Visit_returns_iff time n : is_Some (Node.Visit time n) ↔ 0 < time.
Proof.
  unfold Node.Visit. destruct (Z.ltb_spec 0 time) as [Hpos|Hneg]; cbn.
  - split; [auto|]. intros _.
    destruct (Node.visits_0 n =? 0), (Node.visits_1 n =? 0); eauto.
  - split; [intros [? Hx]; discriminate|lia].
Qed.

Lemma Visit_step time n b n' :
  Node.Visit time n = Some (b, n') →
  0 < time ∧
  Node.index n' = Node.index n ∧ Node.parents n' = Node.parents n ∧
  (Node.visits_0 n ≠ 0 → Node.visits_0 n' = Node.visits_0 n) ∧
  (Node.visits_1 n ≠ 0 → Node.visits_1 n' = Node.visits_1 n) ∧
  (Node.visits_2 n ≠ 0 → Node.visits_2 n' ≠ 0) ∧
  Node.visits_0 n' ≠ 0.
Proof.
  unfold Node.Visit. destruct (Z.ltb_spec 0 time) as [Hpos|Hneg]; cbn;
    [|discriminate].
  destruct (Z.eqb_spec (Node.visits_0 n) 0) as [E0|E0];
    [|destruct (Z.eqb_spec (Node.visits_1 n) 0) as [E1|E1]];
    intros [= <- <-]; cbn; repeat split; auto; lia.
Qed.

(** X1: a traversal returns exactly when all its times are positive;
    a single non-positive time fires the assertion of [Visit]. *)
Theorem traversal_returns_iff_times_positive (ts : list Z) (n : Node.t) :
  is_Some (Node.VisitAll ts n) ↔ Forall (λ time, 0 < time) ts.
Proof.
  revert n. induction ts as [|time ts IH]; intros n; cbn [Node.VisitAll].
  - split; [constructor|eauto].
  - split.
    + intros [[rets n'] Hrun].
      apply bind_Some in Hrun as ([b n1] & Hvisit & Hrun).
      apply bind_Some in Hrun as ([bs n2] & Hrest & _).
      constructor.
      * apply (Visit_returns_iff time n). eauto.
      * apply (IH n1). eauto.
    + intros Hts. inversion Hts as [|? ? Ht Hts']; subst.
      apply (Visit_returns_iff time n) in Ht as [[b n1] Hvisit].
      rewrite Hvisit. cbn.
      apply (IH n1) in Hts' as [[bs n2] Hrest]. rewrite Hrest. cbn. eauto.
Qed.

Lemma VisitAll_keeps (ts : list Z) (n : Node.t)
    (rets : list bool) (n' : Node.t) :
  Node.VisitAll ts n = Some (rets, n') →
  (Node.EnterTime n ≠ 0 → Node.EnterTime n' = Node.EnterTime n) ∧
  (Node.ExitTime n ≠ 0 → Node.ExitTime n' = Node.ExitTime n) ∧
  (Node.Visited n = true → Node.Visited n' = true) ∧
  (Node.Revisited n = true → Node.Revisited n' = true) ∧
  Node.index n' = Node.index n ∧ Node.parents n' = Node.parents n ∧
  length rets = length ts.
Proof.
  assert (Hflag : ∀ x, (if negb (x =? 0) then true else false) = true ↔ x ≠ 0).
  { intros x. destruct (Z.eqb_spec x 0); cbn; split; congruence. }
  unfold Node.EnterTime, Node.ExitTime, Node.Visited, Node.Revisited.
  rewrite !Hflag. clear Hflag.
  revert n rets n'. induction ts as [|time ts IH]; intros n rets n' Hrun;
    cbn [Node.VisitAll] in Hrun.
  - injection Hrun as <- <-. repeat split; auto.
  - apply bind_Some in Hrun as ([b n1] & Hvisit & Hrun).
    apply bind_Some in Hrun as ([bs n2] & Hrest & Hrun).
    injection Hrun as <- <-.
    apply Visit_step in Hvisit as (_ & Hi & Hp & H0 & H1 & H2 & _).
    apply IH in Hrest as (K0 & K1 & KV & KR & Ki & Kp & Kl).
    repeat split.
    + intros Hn. rewrite K0, H0; auto. rewrite H0; auto.
    + intros Hn. rewrite K1, H1; auto. rewrite H1; auto.
    + intros Hn. apply KV. rewrite H0; auto.
    + intros Hn. apply KR. auto.
    + congruence.
    + congruence.
    + cbn. lia.
Qed.

(** X2: whatever the state of the node, a traversal never overwrites
    an enter or exit time that is registered, never turns [Visited] or
    [Revisited] back to false, leaves the index and the parents alone,
    and answers every call. *)
Theorem traversal_keeps_registered_times (ts : list Z) (n : Node.t)
    (rets : list bool) (n' : Node.t) :
  Node.VisitAll ts n = Some (rets, n') →
  (Node.EnterTime n ≠ 0 → Node.EnterTime n' = Node.EnterTime n) ∧
  (Node.ExitTime n ≠ 0 → Node.ExitTime n' = Node.ExitTime n) ∧
  (Node.Visited n = true → Node.Visited n' = true) ∧
  (Node.Revisited n = true → Node.Revisited n' = true) ∧
  Node.index n' = Node.index n ∧ Node.parents n' = Node.parents n ∧
  length rets = length ts.
Proof. exact (VisitAll_keeps ts n rets n'). Qed.


Lemma traversal_keeps_registered_times_witness :
  let n := Node.Build 7 3 0 0 {[ 2 ]} in
  ∃ rets n', Node.VisitAll [5; 6] n = Some (rets, n') ∧
             Node.EnterTime n' = 3 ∧ Node.parents n' = {[ 2 ]} ∧
             length rets = 2%nat.
Proof.
  intros n. eexists _, _. split; [reflexivity|].
  destruct (traversal_keeps_registered_times [5; 6] n _ _ eq_refl)
    as (H0 & _ & _ & _ & _ & Hp & Hl).
  split; [apply H0; cbn; lia|]. split; [exact Hp|exact Hl].
Defined.

Lemma sorted_last_above (l : list Z) : ∀ x d,
  StronglySorted Z.lt (x :: l) → l ≠ [] → x < List.last l d.
Proof.
  induction l as [|y l IH]; intros x d Hs Hne; [contradiction|].
  apply StronglySorted_inv in Hs as [Hs Hx].
  destruct l as [|z l].
  - cbn. inversion Hx; assumption.
  - change (x < List.last (z :: l) d).
    transitivity y; [inversion Hx; assumption|].
    apply IH; [assumption|discriminate].
Qed.

(** X3: when a cleared node is visited at least twice with positive,
    strictly increasing times, its enter time is below its exit time
    and the exit time is at most its last visit; from the third visit
    on the last visit is strictly later than the exit. *)
Theorem increasing_times_order_the_slots (ts : list Z) (n : Node.t) :
  Forall (λ time, 0 < time) ts → StronglySorted Z.lt ts →
  (2 ≤ length ts)%nat →
  ∃ rets n',
    Node.VisitAll ts (Node.ClearVisits n) = Some (rets, n') ∧
    Node.EnterTime n' < Node.ExitTime n' ≤ Node.LastVisit n' ∧
    ((3 ≤ length ts)%nat → Node.ExitTime n' < Node.LastVisit n') ∧
    ((length ts = 2)%nat → Node.LastVisit n' = Node.ExitTime n').
Proof.
  intros Hpos Hsorted Hlen.
  eexists _, _. split; [apply VisitAll_cleared; [assumption|reflexivity..]|].
  destruct ts as [|t1 [|t2 rest]]; cbn in Hlen; try lia.
  unfold Node.EnterTime, Node.ExitTime, Node.LastVisit.
  cbn [nth drop Node.visits_0 Node.visits_1 Node.visits_2 Node.set_visits].
  apply StronglySorted_inv in Hsorted as [Hsorted H1].
  assert (t1 < t2) by (inversion H1; assumption).
  rewrite drop_0.
  destruct rest as [|t3 rest].
  - cbn. repeat split; intros; cbn in *; lia.
  - assert (Hlast : t2 < List.last (t3 :: rest) 0)
      by (apply sorted_last_above; [assumption|discriminate]).
    revert Hlast. generalize (List.last (t3 :: rest) 0). intros L HL.
    inversion Hpos as [|? ? _ Hpos']; inversion Hpos' as [|? ? Ht2 _]; subst.
    destruct (Z.eqb_spec L 0); [lia|]. cbn. repeat split; intros; cbn in *; lia.
Qed.

Lemma increasing_times_order_the_slots_witness :
  ∃ rets n',
    Node.VisitAll [3; 5; 8; 9] (Node.ClearVisits Examples.node0) = Some (rets, n') ∧
    Node.EnterTime n' < Node.ExitTime n' ≤ Node.LastVisit n' ∧
    ((3 ≤ 4)%nat → Node.ExitTime n' < Node.LastVisit n') ∧
    ((4 = 2)%nat → Node.LastVisit n' = Node.ExitTime n').
Proof.
  apply (increasing_times_order_the_slots [3; 5; 8; 9] Examples.node0).
  - repeat constructor; lia.
  - repeat constructor; lia.
  - cbn. lia.
Defined.

(** X4: [ClearVisits] after any traversal gives back exactly the
    cleared node the traversal started from: the history of visits
    leaves no trace. *)
Theorem ClearVisits_forgets_traversal (ts : list Z) (n : Node.t)
    (rets : list bool) (n' : Node.t) :
  Node.VisitAll ts n = Some (rets, n') →
  Node.ClearVisits n' = Node.ClearVisits n.
Proof.
  intros Hrun.
  apply VisitAll_keeps in Hrun as (_ & _ & _ & _ & Hi & Hp & _).
  unfold Node.ClearVisits, Node.set_visits.
  unfold Node.index, Node.parents in *. rewrite Hi, Hp. reflexivity.
Qed.

Lemma ClearVisits_forgets_traversal_witness :
  ∃ rets n', Node.VisitAll [3; 5; 8] Examples.node0 = Some (rets, n') ∧
             Node.ClearVisits n' = Node.ClearVisits Examples.node0.
Proof.
  eexists _, _. split; [reflexivity|].
  apply (ClearVisits_forgets_traversal [3; 5; 8] Examples.node0 _ _ eq_refl).
Defined.

(** X5: [AddParent] fires its assertion exactly on a non-positive
    index and [EraseParent] exactly on a non-positive or absent one;
    adding a parent that is new and erasing it again gives back the
    node, and adding a parent twice is adding it once. *)
Theorem parent_bookkeeping (i : Z) (n : Node.t) :
  (Node.AddParent i n = None ↔ i ≤ 0) ∧
  (Node.EraseParent i n = None ↔ i ≤ 0 ∨ i ∉ Node.parents n) ∧
  (0 < i → i ∉ Node.parents n →
     Node.AddParent i n ≫= Node.EraseParent i = Some n) ∧
  (0 < i → i ∈ Node.parents n → Node.AddParent i n = Some n).
Proof.
  unfold Node.AddParent, Node.EraseParent, Node.parents, Node.set_parents.
  destruct n as [idx v0 v1 v2 ps]. cbn [Node.parents_
    Node.index_ Node.visits_0 Node.visits_1 Node.visits_2].
  destruct (Z.ltb_spec 0 i) as [Hpos|Hneg]; cbn.
  - split; [split; [discriminate|lia]|].
    split.
    + destruct (decide (i ∈ ps)) as [Hin|Hout].
      * rewrite bool_decide_eq_true_2 by assumption. cbn.
        split; [discriminate|]. intros [?|?]; [lia|contradiction].
      * rewrite bool_decide_eq_false_2 by assumption. cbn. split; auto.
    + split.
      * intros _ Hout.
        rewrite bool_decide_eq_true_2
          by (apply elem_of_union; left; apply elem_of_singleton; reflexivity).
        cbn. do 2 f_equal. apply set_eq. intros x.
        rewrite elem_of_difference, elem_of_union, elem_of_singleton.
        split; [intros [[->|?] ?]; [contradiction|assumption]|].
        intros Hx. split; [auto|]. intros ->. contradiction.
      * intros _ Hin. do 2 f_equal. apply set_eq. intros x.
        rewrite elem_of_union, elem_of_singleton.
        split; [intros [->|?]; assumption|auto].
  - split; [split; [lia|auto]|].
    split; [split; [auto|reflexivity]|]. split; intros; lia.
Qed.

Lemma parent_bookkeeping_witness :
  Node.AddParent 4 Examples.node0 ≫= Node.EraseParent 4 = Some Examples.node0.
Proof.
  apply (parent_bookkeeping 4 Examples.node0); [lia|].
  apply not_elem_of_empty.
Defined.

(** ** IGate: what the member functions keep *)

(** X6: [EraseChild] fires its assertion exactly when the signed child
    is not among the children (the complement of a child does not
    count); otherwise it removes that child and nothing else, keeps
    the state, the type and the module flag, and a second erasure of
    the same child fires the assertion. *)
Theorem EraseChild_removes_one_child (child : Z) (g : IGate.t) :
  (IGate.EraseChild child g = None ↔ child ∉ IGate.children g) ∧
  ∀ g', IGate.EraseChild child g = Some g' →
    child ∈ IGate.children g ∧
    (∀ c, c ∈ IGate.children g' ↔ c ∈ IGate.children g ∧ c ≠ child) ∧
    IGate.state g' = IGate.state g ∧ IGate.type g' = IGate.type g ∧
    IGate.IsModule g' = IGate.IsModule g ∧ IGate.node g' = IGate.node g ∧
    IGate.EraseChild child g' = None.
Proof.
  unfold IGate.EraseChild, IGate.children.
  destruct (decide (child ∈ IGate.children_ g)) as [Hin|Hout].
  - rewrite bool_decide_eq_true_2 by assumption. cbn.
    split; [split; [discriminate|contradiction]|].
    intros g' [= <-]. cbn.
    split; [assumption|]. split.
    + intros c. rewrite elem_of_difference, elem_of_singleton. reflexivity.
    + repeat split.
      rewrite bool_decide_eq_false_2; [reflexivity|].
      rewrite elem_of_difference, elem_of_singleton. tauto.
  - rewrite bool_decide_eq_false_2 by assumption. cbn.
    split; [split; auto|]. discriminate.
Qed.

Lemma EraseChild_removes_one_child_witness :
  ∃ g', IGate.EraseChild (-2) Examples.gate0 = Some g' ∧
        (∀ c, c ∈ IGate.children g' ↔ c ∈ IGate.children Examples.gate0 ∧ c ≠ -2) ∧
        IGate.EraseChild (-2) g' = None ∧
        IGate.EraseChild 2 Examples.gate0 = None.
Proof.
  destruct (EraseChild_removes_one_child (-2) Examples.gate0) as [_ Hok].
  eexists. split; [reflexivity|].
  destruct (Hok _ eq_refl) as (_ & Hc & _ & _ & _ & _ & Htwice).
  split; [exact Hc|]. split; [exact Htwice|].
  vm_compute. reflexivity.
Defined.

Lemma set_type_returns_iff ty g :
  is_Some (IGate.set_type ty g) ↔ IGate.is_simple_type ty = true.
Proof.
  unfold IGate.set_type. destruct ty; cbn; split; intros Hs;
    try discriminate; eauto; destruct Hs as [? Hs]; discriminate.
Qed.

(** What one request changes: the index never, the type only into a
    simple one, the state only by a terminal transition from the normal
    state, the module flag only by [TurnModule] from false to true. *)
Lemma mutate_step (m : IGate.mutator) (g g' : IGate.t) :
  IGate.mutate m g = Some g' →
  IGate.index g' = IGate.index g ∧
  (IGate.type g' = IGate.type g ∨ IGate.is_simple_type (IGate.type g') = true) ∧
  (if IGate.is_terminal_request m
   then IGate.state g = kNormalState ∧ IGate.state g' ≠ kNormalState
   else IGate.state g' = IGate.state g) ∧
  (if IGate.is_module_request m
   then IGate.IsModule g = false ∧ IGate.IsModule g' = true
   else IGate.IsModule g' = IGate.IsModule g).
Proof.
  destruct m; cbn [IGate.mutate IGate.is_terminal_request
                   IGate.is_module_request]; intros Hm.
  - assert (Hs : IGate.is_simple_type ty = true)
      by (apply (set_type_returns_iff ty g); eauto).
    unfold IGate.set_type in Hm.
    apply bind_Some in Hm as (_ & _ & [= <-]). cbn. auto.
  - injection Hm as <-. cbn. auto.
  - injection Hm as <-. cbn. auto.
  - injection Hm as <-. cbn. auto.
  - unfold IGate.EraseChild in Hm.
    apply bind_Some in Hm as (_ & _ & [= <-]). cbn. auto.
  - rewrite apply_unfold in Hm. apply bind_Some in Hm as ([] & Ha & [= <-]).
    unfold IGate.state. destruct (IGate.state_ g); try discriminate.
    cbn. split; [reflexivity|]. split; [auto|].
    split; [split; [reflexivity|destruct tr; discriminate]|reflexivity].
  - unfold IGate.TurnModule in Hm.
    apply bind_Some in Hm as ([] & Ha & [= <-]).
    unfold IGate.IsModule. destruct (IGate.module_ g); [discriminate|].
    cbn. auto.
  - apply bind_Some in Hm as (n & Hn & [= <-]).
    unfold Node.AddParent in Hn. apply bind_Some in Hn as (_ & _ & [= <-]).
    cbn. auto.
  - apply bind_Some in Hm as (n & Hn & [= <-]).
    unfold Node.EraseParent in Hn. apply bind_Some in Hn as (_ & _ & Hn).
    apply bind_Some in Hn as (_ & _ & [= <-]). cbn. auto.
  - apply bind_Some in Hm as ([b n] & Hn & [= <-]).
    apply Visit_step in Hn as (_ & Hi & _). cbn. auto.
  - injection Hm as <-. cbn. auto.
Qed.

(** A one-way switch: requests of one kind need the switch off and
    turn it on, the others keep what is observed of it. *)
Lemma one_way_switch {A} (req : IGate.mutator → bool) (off : IGate.t → Prop)
    (obs : IGate.t → A) :
  (∀ g g', obs g' = obs g → (off g' ↔ off g)) →
  (∀ m g g', IGate.mutate m g = Some g' →
     if req m then off g ∧ ¬ off g' else obs g' = obs g) →
  ∀ ms g g', IGate.mutate_all ms g = Some g' →
    (length (List.filter req ms) ≤ 1)%nat ∧
    (List.filter req ms = [] → obs g' = obs g) ∧
    (¬ off g → List.filter req ms = []) ∧
    (List.filter req ms ≠ [] → off g ∧ ¬ off g').
Proof.
  intros Hobs Hstep. induction ms as [|m ms IH]; intros g g' Hrun;
    cbn [IGate.mutate_all] in Hrun.
  - injection Hrun as <-. cbn. repeat split; auto. contradiction.
  - apply bind_Some in Hrun as (g1 & Hm & Hrun).
    specialize (Hstep m g g1 Hm).
    destruct (IH g1 g' Hrun) as (Hlen & Hnone & Hon & Hsome).
    cbn [List.filter]. destruct (req m).
    + destruct Hstep as [Hoff Hon1]. specialize (Hon Hon1).
      rewrite Hon. cbn.
      split; [lia|]. split; [discriminate|].
      split; [intros ?; contradiction|].
      intros _. split; [assumption|]. intros Hg'. apply Hon1.
      apply (Hobs g1 g' (Hnone Hon)). assumption.
    + split; [exact Hlen|].
      split; [intros Hn; rewrite (Hnone Hn); exact Hstep|].
      split.
      * intros Hg. apply Hon. intros H1. apply Hg.
        apply (Hobs g g1 Hstep). assumption.
      * intros Hne. destruct (Hsome Hne) as [H1 H2].
        split; [apply (Hobs g g1 Hstep); assumption|assumption].
Qed.

(** X7: in any sequence of member-function calls on a gate that all
    return, at most one is [Nullify] or [MakeUnity]; such a call is
    only possible from the normal state and leaves the gate in a
    terminal state for good; without one the state is unchanged. *)
Theorem gate_state_changes_at_most_once (ms : list IGate.mutator)
    (g g' : IGate.t) :
  IGate.mutate_all ms g = Some g' →
  (length (List.filter IGate.is_terminal_request ms) ≤ 1)%nat ∧
  (List.filter IGate.is_terminal_request ms = [] →
     IGate.state g' = IGate.state g) ∧
  (IGate.state g ≠ kNormalState →
     List.filter IGate.is_terminal_request ms = []) ∧
  (List.filter IGate.is_terminal_request ms ≠ [] →
     IGate.state g = kNormalState ∧ IGate.state g' ≠ kNormalState).
Proof.
  apply (one_way_switch IGate.is_terminal_request
           (λ g, IGate.state g = kNormalState) IGate.state).
  - intros g1 g2 ->. reflexivity.
  - intros m g1 g2 Hm. apply mutate_step in Hm as (_ & _ & Hs & _). exact Hs.
Qed.

Lemma gate_state_changes_at_most_once_witness :
  ∃ g', IGate.mutate_all
          [IGate.DoEraseChild 1; IGate.DoTerminal IGate.DoMakeUnity;
           IGate.SetChildren {[ 5 ]}; IGate.DoTurnModule] Examples.gate0
        = Some g' ∧
        IGate.state g' ≠ kNormalState.
Proof.
  eexists. split; [vm_compute; reflexivity|].
  eapply (gate_state_changes_at_most_once
            [IGate.DoEraseChild 1; IGate.DoTerminal IGate.DoMakeUnity;
             IGate.SetChildren {[ 5 ]}; IGate.DoTurnModule] Examples.gate0).
  - vm_compute. reflexivity.
  - discriminate.
Defined.

(** X8: in any sequence of member-function calls that all return,
    [TurnModule] occurs at most once and only on a gate that is not a
    module; a module flag that is set is never cleared. *)
Theorem module_flag_is_set_at_most_once (ms : list IGate.mutator)
    (g g' : IGate.t) :
  IGate.mutate_all ms g = Some g' →
  (length (List.filter IGate.is_module_request ms) ≤ 1)%nat ∧
  (List.filter IGate.is_module_request ms = [] →
     IGate.IsModule g' = IGate.IsModule g) ∧
  (IGate.IsModule g = true → List.filter IGate.is_module_request ms = []) ∧
  (List.filter IGate.is_module_request ms ≠ [] →
     IGate.IsModule g = false ∧ IGate.IsModule g' = true) ∧
  (IGate.IsModule g = true → IGate.IsModule g' = true).
Proof.
  intros Hrun.
  assert (Hobs : ∀ g1 g2, IGate.IsModule g2 = IGate.IsModule g1 →
                          (IGate.IsModule g2 = false ↔ IGate.IsModule g1 = false))
    by (intros g1 g2 E; rewrite E; reflexivity).
  assert (Hstep : ∀ m g1 g2, IGate.mutate m g1 = Some g2 →
            if IGate.is_module_request m
            then IGate.IsModule g1 = false ∧ ¬ IGate.IsModule g2 = false
            else IGate.IsModule g2 = IGate.IsModule g1).
  { intros m g1 g2 Hm. apply mutate_step in Hm as (_ & _ & _ & Hmod).
    destruct (IGate.is_module_request m); [|exact Hmod].
    destruct Hmod as [Hoff Hon]. split; [assumption|]. rewrite Hon. discriminate. }
  destruct (one_way_switch IGate.is_module_request
              (λ g, IGate.IsModule g = false) IGate.IsModule Hobs Hstep
              ms g g' Hrun) as (Hlen & Hnone & Hon & Hsome).
  split; [exact Hlen|]. split; [exact Hnone|].
  assert (Hset : IGate.IsModule g = true →
                 List.filter IGate.is_module_request ms = []).
  { intros Hg. apply Hon. rewrite Hg. discriminate. }
  split; [exact Hset|]. split.
  - intros Hne. destruct (Hsome Hne) as [Hoff Hnot].
    split; [assumption|]. destruct (IGate.IsModule g'); congruence.
  - intros Hg. rewrite Hnone; auto.
Qed.

Lemma module_flag_is_set_at_most_once_witness :
  ∃ g', IGate.mutate_all [IGate.DoTurnModule; IGate.DoEraseAllChildren]
          Examples.gate0 = Some g' ∧
        IGate.IsModule g' = true ∧
        IGate.mutate IGate.DoTurnModule g' = None.
Proof.
  eexists. split; [vm_compute; reflexivity|]. split.
  - destruct (module_flag_is_set_at_most_once
                [IGate.DoTurnModule; IGate.DoEraseAllChildren] Examples.gate0
                _ eq_refl) as (_ & _ & _ & Hset & _).
    apply Hset. discriminate.
  - reflexivity.
Defined.

(** X9: no sequence of member-function calls changes the index of a
    gate, and the type it ends with is either the type it started with
    or one of AND, OR, NOT, NULL: the setter cannot introduce an
    ATLEAST, XOR, NAND or NOR gate. *)
Theorem gate_keeps_index_and_simplifies_type (ms : list IGate.mutator)
    (g g' : IGate.t) :
  IGate.mutate_all ms g = Some g' →
  IGate.index g' = IGate.index g ∧
  (IGate.type g' = IGate.type g ∨
   IGate.type g' = kAndGate ∨ IGate.type g' = kOrGate ∨
   IGate.type g' = kNotGate ∨ IGate.type g' = kNullGate).
Proof.
  revert g. induction ms as [|m ms IH]; intros g Hrun;
    cbn [IGate.mutate_all] in Hrun.
  - injection Hrun as <-. auto.
  - apply bind_Some in Hrun as (g1 & Hm & Hrun).
    apply mutate_step in Hm as (Hi & Hty & _).
    apply IH in Hrun as (Hi' & Hty').
    split; [congruence|].
    destruct Hty' as [Hsame|Hsimple]; [|auto].
    rewrite Hsame. destruct Hty as [->|Hs]; [auto|].
    right. destruct (IGate.type g1); try discriminate; auto.
Qed.

Lemma gate_keeps_index_and_simplifies_type_witness :
  ∃ g', IGate.mutate_all [IGate.SetType kAndGate; IGate.DoVisit 3]
          Examples.gate0 = Some g' ∧
        IGate.index g' = 12 ∧
        IGate.mutate (IGate.SetType kXorGate) g' = None.
Proof.
  eexists. split; [vm_compute; reflexivity|]. split.
  - eapply (gate_keeps_index_and_simplifies_type
              [IGate.SetType kAndGate; IGate.DoVisit 3] Examples.gate0).
    vm_compute. reflexivity.
  - reflexivity.
Defined.

(** ** IndexedFaultTree: the container of gates *)

Lemma AddGate_unfold gate tree :
  IndexedFaultTree.indexed_gates_ tree !! IGate.index gate = None →
  IndexedFaultTree.AddGate gate tree
  = Some (IndexedFaultTree.Build
            (IndexedFaultTree.top_event_index_ tree)
            (IndexedFaultTree.kGateIndex_ tree)
            (<[ IGate.index gate := gate ]> (IndexedFaultTree.indexed_gates_ tree))
            (IndexedFaultTree.new_gate_index_ tree)).
Proof.
  intros Hfree. unfold IndexedFaultTree.AddGate, IndexedFaultTree.map_insert.
  rewrite Hfree. rewrite bool_decide_eq_false_2 by (intros [? ?]; discriminate).
  reflexivity.
Qed.

Lemma AddGate_taken gate tree :
  is_Some (IndexedFaultTree.indexed_gates_ tree !! IGate.index gate) →
  IndexedFaultTree.AddGate gate tree = None.
Proof.
  intros Htaken. unfold IndexedFaultTree.AddGate.
  rewrite bool_decide_eq_true_2 by assumption. reflexivity.
Qed.

(** X10: [AddGate] fires its assertion exactly when a gate is already
    stored under the index of the new one; otherwise the gate is
    stored under its index, [GetGate] hands it back whenever that index
    is a positive gate index, every other entry, the counter and the
    top index are as before, and adding the gate again fires the
    assertion. *)
Theorem AddGate_then_GetGate (gate : IGate.t) (tree : IndexedFaultTree.t) :
  (IndexedFaultTree.AddGate gate tree = None
   ↔ is_Some (IndexedFaultTree.indexed_gates_ tree !! IGate.index gate)) ∧
  ∀ tree', IndexedFaultTree.AddGate gate tree = Some tree' →
    (0 < IGate.index gate →
     IndexedFaultTree.kGateIndex_ tree ≤ IGate.index gate →
     IndexedFaultTree.GetGate (IGate.index gate) tree' = Some gate) ∧
    (∀ j, j ≠ IGate.index gate →
       IndexedFaultTree.GetGate j tree' = IndexedFaultTree.GetGate j tree) ∧
    IndexedFaultTree.new_gate_index_ tree' = IndexedFaultTree.new_gate_index_ tree ∧
    IndexedFaultTree.top_event_index tree' = IndexedFaultTree.top_event_index tree ∧
    IndexedFaultTree.AddGate gate tree' = None.
Proof.
  destruct (IndexedFaultTree.indexed_gates_ tree !! IGate.index gate)
    as [old|] eqn:E.
  - rewrite AddGate_taken by (rewrite E; eauto).
    split; [split; eauto|]. discriminate.
  - rewrite (AddGate_unfold _ _ E).
    split; [split; [discriminate|intros [? ?]; discriminate]|].
    intros tree' [= <-]. unfold IndexedFaultTree.GetGate. cbn.
    split; [|split; [|split; [reflexivity|split; [reflexivity|]]]].
    + intros Hpos Hgate.
      apply Z.ltb_lt in Hpos. apply Z.leb_le in Hgate.
      rewrite Hpos, Hgate. cbn. apply lookup_insert_eq.
    + intros j Hj. rewrite lookup_insert_ne by congruence. reflexivity.
    + apply AddGate_taken. cbn. rewrite lookup_insert_eq. eauto.
Qed.

Lemma AddGate_then_GetGate_witness :
  ∃ tree',
    IndexedFaultTree.AddGate (IGate.create 15 kOrGate) Examples.tree0 = Some tree' ∧
    IndexedFaultTree.GetGate 15 tree' = Some (IGate.create 15 kOrGate) ∧
    IndexedFaultTree.AddGate (IGate.create 15 kOrGate) tree' = None.
Proof.
  destruct (AddGate_then_GetGate (IGate.create 15 kOrGate) Examples.tree0)
    as [_ Hok].
  eexists. split; [vm_compute; reflexivity|].
  destruct (Hok _ eq_refl) as (Hget & _ & _ & _ & Htwice).
  split; [apply Hget; cbn; lia|exact Htwice].
Defined.

(** X11: on a well-indexed tree whose counter is not negative and not
    below [kGateIndex - 1], with room below [INT_MAX], [CreateGate]
    returns a gate of the requested type that [GetGate] hands back and
    [IsGateIndex] recognises; every gate that [GetGate] returned before
    is returned as before, and so is the top gate if there was one. *)
Theorem CreateGate_then_GetGate (type : GateType) (tree : IndexedFaultTree.t) :
  IndexedFaultTree.well_indexed tree →
  0 ≤ IndexedFaultTree.new_gate_index_ tree < INT_MAX →
  IndexedFaultTree.kGateIndex_ tree ≤ IndexedFaultTree.new_gate_index_ tree + 1 →
  ∃ gate tree',
    IndexedFaultTree.CreateGate type tree = Some (gate, tree') ∧
    IGate.type gate = type ∧
    IndexedFaultTree.GetGate (IGate.index gate) tree' = Some gate ∧
    IndexedFaultTree.IsGateIndex (IGate.index gate) tree' = Some true ∧
    (∀ j g, IndexedFaultTree.GetGate j tree = Some g →
            IndexedFaultTree.GetGate j tree' = Some g) ∧
    (∀ g, IndexedFaultTree.top_event tree = Some g →
          IndexedFaultTree.top_event tree' = Some g).
Proof.
  intros Hwf [Hnn Hroom] Hk.
  destruct (CreateGate_next type tree Hroom Hwf) as [Hcreate Hfresh].
  cbn zeta in Hcreate, Hfresh.
  set (i := IndexedFaultTree.new_gate_index_ tree + 1) in *.
  eexists _, _. split; [exact Hcreate|].
  unfold IndexedFaultTree.GetGate, IndexedFaultTree.IsGateIndex,
    IndexedFaultTree.top_event.
  cbn [IndexedFaultTree.kGateIndex_ IndexedFaultTree.indexed_gates_
       IndexedFaultTree.top_event_index_].
  change (IGate.index (IGate.create i type)) with i.
  assert (Hpos : (0 <? i) = true) by (apply Z.ltb_lt; subst i; lia).
  assert (Hgate : (IndexedFaultTree.kGateIndex_ tree <=? i) = true)
    by (apply Z.leb_le; assumption).
  rewrite Hpos, Hgate. cbn [assert mbind option_bind].
  split; [reflexivity|]. split; [apply lookup_insert_eq|].
  split; [reflexivity|]. split.
  - intros j g Hj.
    apply bind_Some in Hj as ([] & Ha1 & Hj).
    apply bind_Some in Hj as ([] & Ha2 & Hj).
    rewrite Ha1. cbn [mbind option_bind]. rewrite Ha2. cbn [mbind option_bind].
    rewrite lookup_insert_ne; [assumption|]. intros <-. congruence.
  - intros g Hg. apply bind_Some in Hg as ([] & _ & Hg).
    assert (Hne : i ≠ IndexedFaultTree.top_event_index_ tree)
      by (intros Heq; rewrite <- Heq in Hg; congruence).
    rewrite lookup_insert_ne by assumption. rewrite Hg.
    rewrite bool_decide_eq_true_2 by eauto. reflexivity.
Qed.

Lemma CreateGate_then_GetGate_witness :
  ∃ gate tree',
    IndexedFaultTree.CreateGate kOrGate Examples.tree0 = Some (gate, tree') ∧
    IGate.type gate = kOrGate ∧
    IndexedFaultTree.GetGate (IGate.index gate) tree' = Some gate ∧
    IndexedFaultTree.IsGateIndex (IGate.index gate) tree' = Some true ∧
    (∀ j g, IndexedFaultTree.GetGate j Examples.tree0 = Some g →
            IndexedFaultTree.GetGate j tree' = Some g) ∧
    (∀ g, IndexedFaultTree.top_event Examples.tree0 = Some g →
          IndexedFaultTree.top_event tree' = Some g).
Proof.
  apply (CreateGate_then_GetGate kOrGate Examples.tree0).
  - exact tree0_well_indexed.
  - vm_compute. split; [discriminate|reflexivity].
  - vm_compute. discriminate.
Defined.

(** X12: when a gate is already stored right above the counter (as
    [AddGate] allows), [CreateGate] still returns a new gate carrying
    that index and advances the counter, but the container is left as
    it was: the index keeps referring to the gate stored before. *)
Theorem CreateGate_on_taken_index (type : GateType) (tree : IndexedFaultTree.t)
    (old : IGate.t) :
  IndexedFaultTree.new_gate_index_ tree < INT_MAX →
  IndexedFaultTree.indexed_gates_ tree
    !! (IndexedFaultTree.new_gate_index_ tree + 1) = Some old →
  ∃ gate tree',
    IndexedFaultTree.CreateGate type tree = Some (gate, tree') ∧
    IGate.index gate = IndexedFaultTree.new_gate_index_ tree + 1 ∧
    IndexedFaultTree.indexed_gates_ tree' = IndexedFaultTree.indexed_gates_ tree ∧
    IndexedFaultTree.indexed_gates_ tree' !! IGate.index gate = Some old ∧
    IndexedFaultTree.new_gate_index_ tree'
    = IndexedFaultTree.new_gate_index_ tree + 1.
Proof.
  intros Hroom Hold. unfold IndexedFaultTree.CreateGate.
  apply Z.ltb_lt in Hroom. rewrite Hroom. cbn [assert mbind option_bind].
  unfold IndexedFaultTree.map_insert.
  change (IGate.index (IGate.create (IndexedFaultTree.new_gate_index_ tree + 1) type))
    with (IndexedFaultTree.new_gate_index_ tree + 1).
  rewrite Hold. eexists _, _. split; [reflexivity|]. cbn. auto.
Qed.

Lemma CreateGate_on_taken_index_witness :
  ∃ gate tree',
    IndexedFaultTree.CreateGate kOrGate Examples.crowded_tree = Some (gate, tree') ∧
    IGate.index gate = 12 ∧
    IndexedFaultTree.indexed_gates_ tree'
    = IndexedFaultTree.indexed_gates_ Examples.crowded_tree ∧
    IndexedFaultTree.indexed_gates_ tree' !! IGate.index gate
    = Some (IGate.create 12 kAndGate) ∧
    IndexedFaultTree.new_gate_index_ tree' = 12.
Proof.
  apply (CreateGate_on_taken_index kOrGate Examples.crowded_tree
           (IGate.create 12 kAndGate)).
  - vm_compute. reflexivity.
  - apply lookup_insert_eq.
Defined.

Lemma serve_step (r : IndexedFaultTree.request) (tree tree' : IndexedFaultTree.t) :
  IndexedFaultTree.stored_under_own_index tree →
  IndexedFaultTree.serve r tree = Some tree' →
  IndexedFaultTree.stored_under_own_index tree' ∧
  IndexedFaultTree.kGateIndex_ tree' = IndexedFaultTree.kGateIndex_ tree ∧
  IndexedFaultTree.new_gate_index_ tree ≤ IndexedFaultTree.new_gate_index_ tree' ∧
  (∀ k g, IndexedFaultTree.indexed_gates_ tree !! k = Some g →
          IndexedFaultTree.indexed_gates_ tree' !! k = Some g).
Proof.
  intros Hown.
  assert (Hins : ∀ gate top kg c,
    IndexedFaultTree.stored_under_own_index
      (IndexedFaultTree.Build top kg
         (IndexedFaultTree.map_insert (IGate.index gate) gate
            (IndexedFaultTree.indexed_gates_ tree)) c) ∧
    (∀ k g, IndexedFaultTree.indexed_gates_ tree !! k = Some g →
            IndexedFaultTree.map_insert (IGate.index gate) gate
              (IndexedFaultTree.indexed_gates_ tree) !! k = Some g)).
  { intros gate top kg c. unfold IndexedFaultTree.map_insert.
    destruct (IndexedFaultTree.indexed_gates_ tree !! IGate.index gate) eqn:E.
    - split; [exact Hown|auto].
    - split.
      + intros k g Hk. cbn in Hk.
        destruct (decide (IGate.index gate = k)) as [<-|Hne].
        * rewrite lookup_insert_eq in Hk. congruence.
        * rewrite lookup_insert_ne in Hk by assumption. apply Hown. assumption.
      + intros k g Hk. rewrite lookup_insert_ne; [assumption|].
        intros <-. congruence. }
  destruct r as [gate|type|index]; cbn [IndexedFaultTree.serve]; intros Hs.
  - unfold IndexedFaultTree.AddGate in Hs.
    apply bind_Some in Hs as ([] & _ & [= <-]).
    destruct (Hins gate (IndexedFaultTree.top_event_index_ tree)
                (IndexedFaultTree.kGateIndex_ tree)
                (IndexedFaultTree.new_gate_index_ tree)) as [H1 H2].
    split; [exact H1|]. cbn. split; [reflexivity|]. split; [lia|exact H2].
  - apply fmap_Some in Hs as ([gate tree1] & Hc & ->).
    unfold IndexedFaultTree.CreateGate in Hc.
    apply bind_Some in Hc as ([] & _ & [= <- <-]).
    destruct (Hins (IGate.create (IndexedFaultTree.new_gate_index_ tree + 1) type)
                (IndexedFaultTree.top_event_index_ tree)
                (IndexedFaultTree.kGateIndex_ tree)
                (IndexedFaultTree.new_gate_index_ tree + 1)) as [H1 H2].
    split; [exact H1|]. cbn. split; [reflexivity|]. split; [lia|exact H2].
  - injection Hs as <-. cbn. split; [exact Hown|]. split; [reflexivity|].
    split; [lia|auto].
Qed.

(** X13: whatever mix of [AddGate], [CreateGate] and
    [top_event_index(i)] calls is made, as long as they return, every
    stored gate stays stored under its own index, so no two stored
    gates share an index; no gate is removed or replaced,
    [kGateIndex] is constant and the counter never decreases. *)
Theorem container_keeps_gates_under_their_index
    (rs : list IndexedFaultTree.request) (tree tree' : IndexedFaultTree.t) :
  IndexedFaultTree.stored_under_own_index tree →
  IndexedFaultTree.serve_all rs tree = Some tree' →
  IndexedFaultTree.stored_under_own_index tree' ∧
  IndexedFaultTree.no_shared_index tree' ∧
  IndexedFaultTree.kGateIndex_ tree' = IndexedFaultTree.kGateIndex_ tree ∧
  IndexedFaultTree.new_gate_index_ tree ≤ IndexedFaultTree.new_gate_index_ tree' ∧
  (∀ k g, IndexedFaultTree.indexed_gates_ tree !! k = Some g →
          IndexedFaultTree.indexed_gates_ tree' !! k = Some g).
Proof.
  intros Hown Hrun.
  enough (Hmain : IndexedFaultTree.stored_under_own_index tree' ∧
    IndexedFaultTree.kGateIndex_ tree' = IndexedFaultTree.kGateIndex_ tree ∧
    IndexedFaultTree.new_gate_index_ tree ≤ IndexedFaultTree.new_gate_index_ tree' ∧
    (∀ k g, IndexedFaultTree.indexed_gates_ tree !! k = Some g →
            IndexedFaultTree.indexed_gates_ tree' !! k = Some g)).
  { destruct Hmain as (H1 & H2 & H3 & H4). repeat split; try assumption.
    intros k1 k2 g1 g2 Hk1 Hk2 Heq.
    apply H1 in Hk1, Hk2. congruence. }
  revert tree Hown Hrun. induction rs as [|r rs IH]; intros tree Hown Hrun;
    cbn [IndexedFaultTree.serve_all] in Hrun.
  - injection Hrun as <-. repeat split; auto. lia.
  - apply bind_Some in Hrun as (tree1 & Hr & Hrun).
    destruct (serve_step r tree tree1 Hown Hr) as (H1 & H2 & H3 & H4).
    destruct (IH tree1 H1 Hrun) as (K1 & K2 & K3 & K4).
    split; [exact K1|]. split; [congruence|]. split; [lia|auto].
Qed.

Lemma container_keeps_gates_under_their_index_witness :
  ∃ tree',
    IndexedFaultTree.serve_all
      [IndexedFaultTree.DoCreateGate kOrGate;
       IndexedFaultTree.DoAddGate (IGate.create 20 kAndGate);
       IndexedFaultTree.DoSetTop 20] Examples.tree0 = Some tree' ∧
    IndexedFaultTree.no_shared_index tree'.
Proof.
  eexists. split; [vm_compute; reflexivity|].
  eapply (container_keeps_gates_under_their_index
            [IndexedFaultTree.DoCreateGate kOrGate;
             IndexedFaultTree.DoAddGate (IGate.create 20 kAndGate);
             IndexedFaultTree.DoSetTop 20] Examples.tree0).
  - intros k g Hk. apply tree0_well_indexed in Hk. tauto.
  - vm_compute. reflexivity.
Defined.

(** X14: [top_event] fires its assertion exactly when no gate is
    stored under the top index; after [top_event_index(i)] it returns
    the gate that [GetGate(i)] returns, and a gate it returns under a
    positive gate index is the one [GetGate] returns. *)
Theorem top_event_agrees_with_GetGate (i : Z) (tree : IndexedFaultTree.t) :
  (IndexedFaultTree.top_event tree = None
   ↔ IndexedFaultTree.indexed_gates_ tree
       !! IndexedFaultTree.top_event_index tree = None) ∧
  IndexedFaultTree.top_event_index (IndexedFaultTree.set_top_event_index i tree) = i ∧
  (∀ g, IndexedFaultTree.GetGate i tree = Some g →
        IndexedFaultTree.top_event (IndexedFaultTree.set_top_event_index i tree)
        = Some g) ∧
  (∀ g, 0 < i → IndexedFaultTree.kGateIndex_ tree ≤ i →
        IndexedFaultTree.top_event (IndexedFaultTree.set_top_event_index i tree)
        = Some g →
        IndexedFaultTree.GetGate i tree = Some g).
Proof.
  unfold IndexedFaultTree.top_event, IndexedFaultTree.GetGate,
    IndexedFaultTree.top_event_index.
  cbn [IndexedFaultTree.set_top_event_index IndexedFaultTree.top_event_index_
       IndexedFaultTree.indexed_gates_].
  split; [|split; [reflexivity|split]].
  - destruct (IndexedFaultTree.indexed_gates_ tree
                !! IndexedFaultTree.top_event_index_ tree) as [g|].
    + rewrite bool_decide_eq_true_2 by eauto. cbn. split; discriminate.
    + split; reflexivity.
  - intros g Hg. apply bind_Some in Hg as ([] & _ & Hg).
    apply bind_Some in Hg as ([] & _ & Hg). rewrite Hg.
    rewrite bool_decide_eq_true_2 by eauto. reflexivity.
  - intros g Hpos Hgate Hg. apply bind_Some in Hg as ([] & _ & Hg).
    apply Z.ltb_lt in Hpos. apply Z.leb_le in Hgate. rewrite Hpos, Hgate.
    exact Hg.
Qed.

Lemma top_event_agrees_with_GetGate_witness :
  IndexedFaultTree.top_event (IndexedFaultTree.set_top_event_index 11 Examples.tree0)
  = Some (IGate.create 11 kOrGate).
Proof.
  destruct (top_event_agrees_with_GetGate 11 Examples.tree0)
    as (_ & _ & Hfwd & _).
  apply Hfwd. vm_compute. reflexivity.
Defined.

(** ** Config: the option groups *)

Section ConfigProperties.
Context `{SettingsSetters}.

Lemma GetBoolFromString_returns_iff flag :
  is_Some (Config.GetBoolFromString flag)
  ↔ flag ∈ ["1"; "true"; "0"; "false"].
Proof.
  rewrite !elem_of_cons, elem_of_nil.
  pose proof (GetBoolFromString_rejects flag) as Hr.
  destruct (Config.GetBoolFromString flag) as [b|].
  - split; [intros _|eauto].
    destruct (String.eqb_spec flag "1"); [tauto|].
    destruct (String.eqb_spec flag "true"); [tauto|].
    destruct (String.eqb_spec flag "0"); [tauto|].
    destruct (String.eqb_spec flag "false"); [tauto|].
    assert (Some b = None) by (apply Hr; tauto). discriminate.
  - split; [intros [? ?]; discriminate|].
    intros Hin. exfalso. apply (proj1 Hr eq_refl). tauto.
Qed.

(** X15: [SetAnalysis] returns exactly when the value of every
    attribute, recognised or not, is one of [1], [true], [0], [false];
    attributes other than [probability], [importance], [uncertainty]
    and [ccf] then leave the settings as they are. *)
Theorem SetAnalysis_checks_every_value (attr : list (string * string))
    (settings : Settings) :
  (is_Some (ConfigOptions.SetAnalysis attr settings)
   ↔ Forall (λ a, a.2 ∈ ["1"; "true"; "0"; "false"]) attr) ∧
  (Forall (λ a, ConfigOptions.recognised a.1 = false) attr →
   ∀ settings', ConfigOptions.SetAnalysis attr settings = Some settings' →
                settings' = settings).
Proof.
  split.
  - revert settings. induction attr as [|[name value] attr IH]; intros settings;
      cbn [ConfigOptions.SetAnalysis].
    + split; [constructor|eauto].
    + rewrite Forall_cons. cbn [snd].
      rewrite <- GetBoolFromString_returns_iff.
      destruct (Config.GetBoolFromString value) as [flag|]; cbn.
      * rewrite IH. split; [intros Hf; split; [eauto|exact Hf]|tauto].
      * split; [intros [? ?]; discriminate|intros [[? ?] _]; discriminate].
  - revert settings. induction attr as [|[name value] attr IH];
      intros settings Hnames settings' Hrun; cbn [ConfigOptions.SetAnalysis] in Hrun.
    + congruence.
    + apply Forall_cons in Hnames as [Hname Hnames]. cbn [fst] in Hname.
      apply bind_Some in Hrun as (flag & _ & Hrun).
      unfold ConfigOptions.recognised in Hname.
      apply orb_false_iff in Hname as [Hname Hccf].
      apply orb_false_iff in Hname as [Hname Hunc].
      apply orb_false_iff in Hname as [Hprob Himp].
      rewrite Hprob, Himp, Hunc, Hccf in Hrun.
      apply (IH settings Hnames). exact Hrun.
Qed.

(** X16: [SetApprox] returns exactly on a single child element named
    [rare-event] or [mcub], whose name it hands to the setter; no
    element, several elements or another name fire an assertion. *)
Theorem SetApprox_takes_one_approximation (elements : list string)
    (settings : Settings) :
  (is_Some (ConfigOptions.SetApprox elements settings)
   ↔ elements = ["rare-event"] ∨ elements = ["mcub"]) ∧
  ∀ settings', ConfigOptions.SetApprox elements settings = Some settings' →
    ∃ name, elements = [name] ∧ settings' = with_approx name settings.
Proof.
  unfold ConfigOptions.SetApprox.
  destruct elements as [|name [|other rest]]; cbn.
  - split; [split; [intros [? ?]; discriminate|intros [?|?]; discriminate]|].
    discriminate.
  - split.
    + destruct (String.eqb_spec name "rare-event") as [->|Hr]; cbn.
      * split; eauto.
      * destruct (String.eqb_spec name "mcub") as [->|Hm]; cbn.
        -- split; eauto.
        -- split; [intros [? ?]; discriminate|].
           intros [[= ->]|[= ->]]; contradiction.
    + intros settings' Hrun. apply bind_Some in Hrun as ([] & _ & [= <-]).
      eauto.
  - split; [split; [intros [? ?]; discriminate|intros [?|?]; discriminate]|].
    discriminate.
Qed.

End ConfigProperties.

Lemma SetAnalysis_checks_every_value_witness :
  ConfigOptions.SetAnalysis [("gui", "true"); ("verbose", "0")]
    (Examples.settings 0.25 "" 3 4)
  = Some (Examples.settings 0.25 "" 3 4).
Proof.
  destruct (SetAnalysis_checks_every_value [("gui", "true"); ("verbose", "0")]
              (Examples.settings 0.25 "" 3 4)) as [Hreturns Hsame].
  destruct (proj2 Hreturns) as [settings' Hrun].
  { apply Forall_cons. split; [|apply Forall_singleton];
      apply list_elem_of_In; simpl; tauto. }
  rewrite Hrun. f_equal. apply Hsame; [|exact Hrun].
  apply Forall_cons. split; [|apply Forall_singleton]; reflexivity.
Defined.

Lemma SetApprox_takes_one_approximation_witness :
  ∃ name, ["mcub"] = [name] ∧
          with_approx "mcub" (Examples.settings 0.25 "" 3 4)
          = with_approx name (Examples.settings 0.25 "" 3 4).
Proof.
  apply (SetApprox_takes_one_approximation ["mcub"]
           (Examples.settings 0.25 "" 3 4)).
  reflexivity.
Defined.

(** ** Reporter: the lines of a cut set *)

Lemma string_length_app (a b : string) :
  String.length (a +:+ b) = (String.length a + String.length b)%nat.
Proof.
  induction a as [|c a IH]; [reflexivity|].
  change (String c a +:+ b) with (String c (a +:+ b)).
  cbn [String.length]. rewrite IH. reflexivity.
Qed.

Lemma string_app_assoc (a b c : string) : (a +:+ b) +:+ c = a +:+ (b +:+ c).
Proof.
  induction a as [|x a IH]; [reflexivity|].
  change ((String x a +:+ b) +:+ c) with (String x ((a +:+ b) +:+ c)).
  rewrite IH. reflexivity.
Qed.

Lemma string_app_nil_r (a : string) : a +:+ "" = a.
Proof.
  induction a as [|x a IH]; [reflexivity|].
  change (String x a +:+ "") with (String x (a +:+ "")).
  rewrite IH. reflexivity.
Qed.

Lemma concat_lines_app (u v : list string) :
  Reporter.concat_lines (u ++ v)
  = Reporter.concat_lines u +:+ Reporter.concat_lines v.
Proof.
  induction u as [|x u IH]; cbn; [reflexivity|].
  rewrite IH, string_app_assoc. reflexivity.
Qed.

Section ReporterProperties.
Variable split : string → list string.
Variable primary_events : gmap string string.

Abbreviation display_name := (Reporter.display_name split primary_events).
Abbreviation print_members := (Reporter.print_members split primary_events).
Abbreviation print_set := (Reporter.print_set split primary_events).

(** The loop neither drops nor reorders text: what is closed and what
    is on the current line, read in order, grows by the listing of the
    names. *)
Lemma print_members_text (members : list string) : ∀ size j line vec_line,
  j + Z.of_nat (length members) = size + 1 →
  match print_members members size j line vec_line with
  | Some (line', vec_line') =>
      ∃ names,
        Forall2 (λ m name, display_name m = Some name) members names ∧
        Reporter.concat_lines vec_line' +:+ line'
        = (Reporter.concat_lines vec_line +:+ line) +:+ Reporter.listing names
  | None => Exists (λ m, display_name m = None) members
  end.
Proof.
  induction members as [|m rest IH]; intros size j line vec_line Hj;
    cbn [Reporter.print_members].
  - exists []. split; [constructor|]. cbn. rewrite string_app_nil_r. reflexivity.
  - destruct (display_name m) as [name|] eqn:En; cbn [mbind option_bind];
      [|left; assumption].
    cbn [length] in Hj.
    set (wrapped := (60 <? String.length line + String.length name + 2)%nat).
    set (sep := if j <? size then ", " else " ").
    assert (Hstate : ∃ line1 vec1,
      (if wrapped then (name, vec_line ++ [line]) else (line +:+ name, vec_line))
      = (line1, vec1) ∧
      Reporter.concat_lines vec1 +:+ line1
      = (Reporter.concat_lines vec_line +:+ line) +:+ name).
    { destruct wrapped; eexists _, _; (split; [reflexivity|]).
      - rewrite concat_lines_app. cbn. rewrite string_app_nil_r. reflexivity.
      - rewrite string_app_assoc. reflexivity. }
    destruct Hstate as (line1 & vec1 & -> & Htext).
    assert (Hline : (if j <? size then line1 +:+ ", " else line1 +:+ " ")
                    = line1 +:+ sep) by (subst sep; destruct (j <? size); reflexivity).
    rewrite Hline.
    specialize (IH size (j + 1) (line1 +:+ sep) vec1 ltac:(lia)).
    destruct (print_members rest size (j + 1) (line1 +:+ sep) vec1)
      as [[line' vec']|]; [|right; assumption].
    destruct IH as (names & Hnames & Hflat).
    exists (name :: names). split; [constructor; assumption|].
    rewrite Hflat, <- string_app_assoc, Htext, !string_app_assoc.
    do 2 f_equal.
    destruct rest as [|m2 rest].
    + inversion Hnames; subst. cbn.
      subst sep. cbn [length] in Hj.
      destruct (Z.ltb_spec j size); [lia|]. reflexivity.
    + inversion Hnames as [|? n2 ? names' _ _]; subst.
      subst sep. cbn [length] in Hj.
      destruct (Z.ltb_spec j size); [|lia]. reflexivity.
Qed.

(** X17: [print_set] returns exactly when every member of the cut set
    has a display name; its lines, read one after the other, are the
    one-line text of the cut set: an opening brace, the names in order
    separated by a comma and a space, and a closing brace.  Breaking
    the text into lines loses and reorders nothing. *)
Theorem print_set_lines_spell_the_cut_set (min_cut_set : list string) :
  (is_Some (print_set min_cut_set)
   ↔ Forall (λ m, is_Some (display_name m)) min_cut_set) ∧
  ∀ vec_line, print_set min_cut_set = Some vec_line →
    ∃ names,
      Forall2 (λ m name, display_name m = Some name) min_cut_set names ∧
      Reporter.concat_lines vec_line = Reporter.one_line names.
Proof.
  unfold Reporter.print_set.
  pose proof (print_members_text min_cut_set
                (Z.of_nat (length min_cut_set)) 1 "{ " [] ltac:(lia)) as Hrun.
  destruct (print_members min_cut_set _ 1 "{ " []) as [[line vec]|];
    cbn [mbind option_bind].
  - destruct Hrun as (names & Hnames & Hflat). split.
    + split; [intros _|eauto].
      clear Hflat. induction Hnames; constructor; eauto.
    + intros vec_line [= <-]. exists names. split; [assumption|].
      rewrite concat_lines_app. cbn. rewrite string_app_nil_r.
      rewrite <- string_app_assoc, Hflat. cbn.
      unfold Reporter.one_line. cbn. rewrite string_app_assoc. reflexivity.
  - split; [|discriminate].
    split; [intros [? ?]; discriminate|].
    intros Hall. exfalso.
    induction Hrun as [m rest Hm|m rest _ IH];
      inversion Hall as [|? ? [? Hs] Hrest]; subst; [congruence|auto].
Qed.

(** The width kept by the loop: with names of at most 58 characters
    the current line and the closed lines have at most 60. *)
Lemma print_members_width (members : list string) : ∀ size j line vec_line line' vec_line',
  Forall (λ m, ∀ name, display_name m = Some name → (String.length name ≤ 58)%nat)
         members →
  (String.length line ≤ 60)%nat →
  Forall (λ l, (String.length l ≤ 60)%nat) vec_line →
  print_members members size j line vec_line = Some (line', vec_line') →
  (String.length line' ≤ 60)%nat ∧
  Forall (λ l, (String.length l ≤ 60)%nat) vec_line'.
Proof.
  induction members as [|m rest IH];
    intros size j line vec_line line' vec_line' Hshort Hline Hvec Hrun;
    cbn [Reporter.print_members] in Hrun.
  - injection Hrun as <- <-. auto.
  - apply Forall_cons in Hshort as [Hm Hshort].
    apply bind_Some in Hrun as (name & Hname & Hrun).
    specialize (Hm name Hname).
    destruct (Nat.ltb_spec 60 (String.length line + String.length name + 2))
      as [Hwrap|Hfit].
    + eapply (IH _ _ _ _ _ _ Hshort); [| |exact Hrun].
      * destruct (j <? size); rewrite string_length_app; cbn; lia.
      * apply Forall_app. split; [assumption|]. apply Forall_singleton. assumption.
    + eapply (IH _ _ _ _ _ _ Hshort); [| |exact Hrun].
      * destruct (j <? size); rewrite !string_length_app; cbn; lia.
      * assumption.
Qed.

(** X18: when the display names have at most 58 characters, every line
    that [print_set] produces but the last has at most 60 characters,
    and the last one, which ends with the closing brace, at most 61;
    there is always at least one line. *)
Theorem print_set_lines_are_short (min_cut_set vec_line : list string) :
  Forall (λ m, ∀ name, display_name m = Some name → (String.length name ≤ 58)%nat)
         min_cut_set →
  print_set min_cut_set = Some vec_line →
  ∃ front last,
    vec_line = front ++ [last] ∧
    Forall (λ l, (String.length l ≤ 60)%nat) front ∧
    (String.length last ≤ 61)%nat.
Proof.
  intros Hshort Hrun. unfold Reporter.print_set in Hrun.
  apply bind_Some in Hrun as ([line vec] & Hloop & [= <-]).
  apply print_members_width in Hloop as [Hline Hvec];
    [|assumption|cbn; lia|constructor].
  exists vec, (line +:+ "}"). split; [reflexivity|]. split; [assumption|].
  rewrite string_length_app. cbn. lia.
Qed.

(** X19: when [McsToPrint] returns, every cut set of the family has
    its lines in the table, the entries that were in the table are
    kept as they were, and every other entry holds the lines of
    [print_set] for its cut set. *)
Theorem McsToPrint_fills_the_table (min_cut_sets : list (list string))
    (lines lines' : gmap (list string) (list string)) :
  Reporter.McsToPrint split primary_events min_cut_sets lines = Some lines' →
  (∀ s, s ∈ min_cut_sets → is_Some (lines' !! s)) ∧
  (∀ s vec, lines !! s = Some vec → lines' !! s = Some vec) ∧
  (∀ s vec, lines' !! s = Some vec →
     lines !! s = Some vec ∨ (s ∈ min_cut_sets ∧ print_set s = Some vec)).
Proof.
  revert lines. induction min_cut_sets as [|it_min rest IH]; intros lines Hrun;
    cbn [Reporter.McsToPrint] in Hrun.
  - injection Hrun as <-. split; [intros s Hs; inversion Hs|]. auto.
  - apply bind_Some in Hrun as (vec_line & Hprint & Hrun).
    apply IH in Hrun as (Hall & Hkeep & Horigin).
    assert (Hins : ∀ s vec, lines !! s = Some vec →
              match lines !! it_min with
              | Some _ => lines
              | None => <[ it_min := vec_line ]> lines
              end !! s = Some vec).
    { intros s vec Hs. destruct (lines !! it_min) eqn:E; [assumption|].
      rewrite lookup_insert_ne; [assumption|]. intros <-. congruence. }
    split; [|split].
    + intros s Hs. apply elem_of_cons in Hs as [->|Hs]; [|auto].
      destruct (lines !! it_min) as [old|] eqn:E.
      * rewrite (Hkeep it_min old); eauto.
      * rewrite (Hkeep it_min vec_line); [eauto|]. apply lookup_insert_eq.
    + intros s vec Hs. apply Hkeep, Hins, Hs.
    + intros s vec Hs. apply Horigin in Hs as [Hs|[Hin Hp]].
      * destruct (lines !! it_min) as [old|] eqn:E; [auto|].
        destruct (decide (it_min = s)) as [<-|Hne].
        -- rewrite lookup_insert_eq in Hs. injection Hs as <-.
           right. split; [left|assumption].
        -- rewrite lookup_insert_ne in Hs by assumption. auto.
      * right. split; [right; assumption|assumption].
Qed.

Lemma McsToPrint_returns (min_cut_sets : list (list string)) :
  ∀ lines, Forall (λ s, is_Some (print_set s)) min_cut_sets →
           is_Some (Reporter.McsToPrint split primary_events min_cut_sets lines).
Proof.
  induction min_cut_sets as [|it_min rest IH]; intros lines Hall;
    cbn [Reporter.McsToPrint].
  - eauto.
  - apply Forall_cons in Hall as [[vec Hvec] Hall].
    rewrite Hvec. cbn [mbind option_bind]. apply IH. assumption.
Qed.

End ReporterProperties.

Lemma print_set_lines_spell_the_cut_set_witness :
  ∃ names,
    Forall2 (λ m name,
               Reporter.display_name Boost.split Examples.primary_events m
               = Some name)
            ["not valvetwo"; "pumpone"] names ∧
    Reporter.concat_lines ["{ NOT ValveTwo, PumpOne }"] = Reporter.one_line names.
Proof.
  apply (print_set_lines_spell_the_cut_set Boost.split Examples.primary_events
           ["not valvetwo"; "pumpone"]).
  vm_compute. reflexivity.
Defined.

Lemma print_set_lines_are_short_witness :
  ∃ front last,
    ["{ NOT ValveTwo, PumpOne }"] = front ++ [last] ∧
    Forall (λ l, (String.length l ≤ 60)%nat) front ∧
    (String.length last ≤ 61)%nat.
Proof.
  apply (print_set_lines_are_short Boost.split Examples.primary_events
           ["not valvetwo"; "pumpone"]).
  - apply Forall_cons. split; [|apply Forall_singleton];
      intros name Hname; vm_compute in Hname; injection Hname as <-;
      vm_compute; lia.
  - vm_compute. reflexivity.
Defined.

Lemma McsToPrint_fills_the_table_witness :
  ∃ lines',
    Reporter.McsToPrint Boost.split Examples.primary_events
      [["not valvetwo"; "pumpone"]; ["pumpone"]] ∅ = Some lines' ∧
    ∀ s, s ∈ [["not valvetwo"; "pumpone"]; ["pumpone"]] → is_Some (lines' !! s).
Proof.
  destruct (McsToPrint_returns Boost.split Examples.primary_events
              [["not valvetwo"; "pumpone"]; ["pumpone"]] ∅) as [lines' E].
  { apply Forall_cons. split; [|apply Forall_singleton];
      vm_compute; eauto. }
  exists lines'. split; [exact E|].
  apply (McsToPrint_fills_the_table Boost.split Examples.primary_events _ _ _ E).
Defined.

(** ** UncertaintyAnalysis: statistics and cut-off at the edges *)

Lemma ltb_nan_r (c : double) : PrimFloat.ltb c nan = false.
Proof.
  rewrite ltb_spec. unfold SFltb.
  change (Prim2SF nan) with S754_nan.
  destruct (Prim2SF c) as [| | |? ? ?]; reflexivity.
Qed.

Lemma ltb_nan_l (c : double) : PrimFloat.ltb nan c = false.
Proof.
  rewrite ltb_spec. unfold SFltb.
  change (Prim2SF nan) with S754_nan. reflexivity.
Qed.

Section StatisticsProperties.
Context `{BE : BasicEvents} `{!Accumulators} `{!ProbabilityAnalysisMethods}.

(** X20: a cut set whose [ProbAnd] is not a number is never retained,
    and with a cut-off that is not a number no cut set is retained at
    all; in both cases the comparison with the cut-off is false and
    the cut set is dropped silently. *)
Theorem not_a_number_is_cut_off (ua : UncertaintyAnalysis) :
  (∀ S, ProbAnd S (base ua) = nan → S ∉ build_iset ua) ∧
  (cut_off (kSettings_ ua) = nan → build_iset ua = ∅).
Proof.
  unfold build_iset. split.
  - intros S Hnan Hin. apply fold_iset_elem in Hin as [Hin|[_ Hin]].
    + apply elem_of_empty in Hin. contradiction.
    + rewrite Hnan, ltb_nan_r in Hin. discriminate.
  - intros Hnan. apply set_eq. intros S. split.
    + intros Hin. apply fold_iset_elem in Hin as [Hin|[_ Hin]]; [assumption|].
      rewrite Hnan, ltb_nan_l in Hin. discriminate.
    + intros Hin. apply elem_of_empty in Hin. contradiction.
Qed.

(** X21: calling [CalculateStatistics] a second time recomputes the
    same mean, sigma, interval and quantile table (the table is
    cleared first and always has [num_quantiles] entries), but appends
    the histogram once more: the distribution is not cleared. *)
Theorem CalculateStatistics_twice (ua : UncertaintyAnalysis) :
  let once := CalculateStatistics ua in
  let twice := CalculateStatistics once in
  let hist := acc_density 20 (num_trials (kSettings_ ua)) (sampled_results_ ua) in
  mean_ twice = mean_ once ∧ sigma_ twice = sigma_ once ∧
  confidence_interval_ twice = confidence_interval_ once ∧
  quantiles_ twice = quantiles_ once ∧
  length (quantiles_ once) = Z.to_nat (num_quantiles_ ua) ∧
  distribution_ once = distribution_ ua ++ drop 1 hist ∧
  distribution_ twice = distribution_ ua ++ drop 1 hist ++ drop 1 hist ∧
  sampled_results_ twice = sampled_results_ ua ∧ base twice = base ua.
Proof.
  cbn. repeat split.
  - unfold quantile_probabilities. rewrite !length_map, length_seq. reflexivity.
  - rewrite <- app_assoc. reflexivity.
Qed.

End StatisticsProperties.

Lemma not_a_number_is_cut_off_witness :
  build_iset (Examples.indexed Examples.mcs_b (Examples.analysis nan "" 3 4)) = ∅.
Proof.
  apply (not_a_number_is_cut_off
           (Examples.indexed Examples.mcs_b (Examples.analysis nan "" 3 4))).
  reflexivity.
Defined.

(** ** UncertaintyAnalysis: sampling on a well-formed object *)

Lemma at_index_in_range {A} (v : list A) (i : Z) :
  in_range (length v) i → ∃ x, at_index v i = Some x ∧ v !! Z.to_nat i = Some x.
Proof.
  intros [Hlo Hhi]. unfold at_index.
  destruct (Z.ltb_spec i 0); [lia|].
  destruct (lookup_lt_is_Some_2 v (Z.to_nat i)) as [x Hx]; [lia|]. eauto.
Qed.

Lemma store_index_in_range {A} (v : list A) (i : Z) (x : A) :
  in_range (length v) i → store_index v i x = Some (<[ Z.to_nat i := x ]> v).
Proof.
  intros [Hlo Hhi]. unfold store_index.
  destruct (Z.leb_spec 0 i); [|lia]. destruct (Z.ltb_spec i (Z.of_nat (length v))); [|lia].
  reflexivity.
Qed.

Section SampleOnWellFormed.
Context `{BE : BasicEvents} `{!Accumulators} `{!ProbabilityAnalysisMethods}.

Lemma is_constant_at_lookup (events : list BasicEvent) (i : Z) (e : BasicEvent) :
  at_index events i = Some e → is_constant_at events i = IsConstant e.
Proof. intros He. unfold is_constant_at. rewrite He. reflexivity. Qed.

Lemma split_events_spec (events : list BasicEvent) (its : list Z) :
  ∀ (const_events : gset Z) (basic_events : list Z),
    Forall (in_range (length events)) its →
    ∃ const',
      split_events events its const_events basic_events
      = Some (const',
              basic_events
              ++ List.filter (λ i, negb (is_constant_at events i)) its) ∧
      ∀ x, x ∈ const'
           ↔ x ∈ const_events ∨ (x ∈ its ∧ is_constant_at events x = true).
Proof.
  induction its as [|it its IH]; intros const_events basic_events Hits;
    cbn [split_events List.filter].
  - eexists. rewrite app_nil_r. split; [reflexivity|].
    intros x. split; [auto|]. intros [?|[Hin _]]; [assumption|].
    apply elem_of_nil in Hin. contradiction.
  - apply Forall_cons in Hits as [Hit Hits].
    destruct (at_index_in_range events it Hit) as (e & He & _).
    rewrite He. cbn [mbind option_bind].
    rewrite (is_constant_at_lookup _ _ _ He).
    destruct (IsConstant e) eqn:Ec; cbn [negb].
    + destruct (IH ({[ it ]} ∪ const_events) basic_events Hits)
        as (const' & Hrun & Hmem).
      exists const'. split; [exact Hrun|]. intros x. rewrite Hmem.
      rewrite elem_of_union, elem_of_singleton, elem_of_cons.
      split.
      * intros [[->|?]|[? ?]]; auto.
        right. split; [auto|]. rewrite (is_constant_at_lookup _ _ _ He). exact Ec.
      * intros [?|[[->|?] ?]]; auto.
    + destruct (IH const_events (basic_events ++ [it]) Hits)
        as (const' & Hrun & Hmem).
      exists const'. rewrite <- app_assoc in Hrun. split; [exact Hrun|].
      intros x. rewrite Hmem, elem_of_cons.
      split; [intros [?|[? ?]]; auto|].
      intros [?|[[->|?] Hc]]; auto.
      rewrite (is_constant_at_lookup _ _ _ He) in Hc. congruence.
Qed.

Lemma literal_prob_in_range (iprobs : list double) (literal : Z) :
  in_range (length iprobs) (Z.abs literal) → is_Some (literal_prob iprobs literal).
Proof.
  intros Hr. unfold literal_prob. destruct (Z.ltb_spec 0 literal).
  - rewrite Z.abs_eq in Hr by lia.
    destruct (at_index_in_range iprobs literal Hr) as (x & Hx & _). eauto.
  - rewrite Z.abs_neq in Hr by lia.
    destruct (at_index_in_range iprobs (- literal) Hr) as (x & Hx & _).
    rewrite Hx. cbn. eauto.
Qed.

Lemma strip_constants_spec (const_events : gset Z) (iprobs : list double)
    (it_set : list Z) :
  (∀ i, i ∈ const_events → in_range (length iprobs) i) →
  ∀ const_prob, ∃ const_prob',
    strip_constants const_events iprobs it_set const_prob
    = Some (List.filter (λ literal, negb (bool_decide (Z.abs literal ∈ const_events)))
                        it_set,
            const_prob').
Proof.
  intros Hrange. induction it_set as [|it_f rest IH]; intros const_prob;
    cbn [strip_constants List.filter].
  - eauto.
  - destruct (decide (Z.abs it_f ∈ const_events)) as [Hin|Hout].
    + rewrite bool_decide_eq_true_2 by assumption. cbn [negb].
      destruct (literal_prob_in_range iprobs it_f (Hrange _ Hin)) as [p Hp].
      rewrite Hp. cbn [mbind option_bind]. apply IH.
    + rewrite bool_decide_eq_false_2 by assumption. cbn [negb].
      destruct (IH const_prob) as [c Hc]. rewrite Hc. cbn. eauto.
Qed.

Lemma strip_terms_spec (const_events : gset Z) (iprobs : list double)
    (terms : list (list Z)) :
  (∀ i, i ∈ const_events → in_range (length iprobs) i) →
  ∃ consts,
    strip_terms const_events iprobs terms
    = Some (map (List.filter
                   (λ literal, negb (bool_decide (Z.abs literal ∈ const_events))))
                terms,
            consts) ∧
    length consts = length terms.
Proof.
  intros Hrange. induction terms as [|it_set rest IH]; cbn [strip_terms map].
  - exists []. auto.
  - destruct (strip_constants_spec const_events iprobs it_set Hrange 1%float)
      as [c Hc].
    rewrite Hc. cbn [mbind option_bind].
    destruct IH as (consts & Hrest & Hlen). rewrite Hrest. cbn.
    exists (c :: consts). split; [reflexivity|]. cbn. lia.
Qed.

Lemma FilterUncertainEvents_spec (ua : UncertaintyAnalysis) :
  indices_in_range ua →
  ∃ basic_events ua' pos_c neg_c,
    FilterUncertainEvents ua = Some (basic_events, ua') ∧
    basic_events
    = List.filter (λ i, negb (is_constant_at (int_to_basic_ (base ua)) i))
                  (merge_sort Z.le (elements (mcs_basic_events_ (base ua)))) ∧
    Forall (in_range (length (int_to_basic_ (base ua)))) basic_events ∧
    pos_terms_ (base ua') = strip_all (base ua) (pos_terms_ (base ua)) ∧
    neg_terms_ (base ua') = strip_all (base ua) (neg_terms_ (base ua)) ∧
    pos_const_ ua' = pos_const_ ua ++ pos_c ∧
    length pos_c = length (pos_terms_ (base ua)) ∧
    neg_const_ ua' = neg_const_ ua ++ neg_c ∧
    length neg_c = length (neg_terms_ (base ua)) ∧
    iprobs_ (base ua') = iprobs_ (base ua) ∧
    int_to_basic_ (base ua') = int_to_basic_ (base ua) ∧
    sampled_results_ ua' = sampled_results_ ua ∧
    kSettings_ ua' = kSettings_ ua ∧ random_ ua' = random_ ua.
Proof.
  intros [Hlen Hmcs]. unfold FilterUncertainEvents.
  set (p := base ua) in *.
  set (its := merge_sort Z.le (elements (mcs_basic_events_ p))).
  assert (Hits_mcs : ∀ x, x ∈ its ↔ x ∈ mcs_basic_events_ p).
  { intros x. subst its. rewrite merge_sort_Permutation. apply elem_of_elements. }
  assert (Hits : Forall (in_range (length (int_to_basic_ p))) its).
  { apply Forall_forall. intros x Hx. apply Hmcs, Hits_mcs, Hx. }
  destruct (split_events_spec (int_to_basic_ p) its ∅ [] Hits)
    as (const' & Hsplit & Hconst).
  rewrite Hsplit. cbn [mbind option_bind app].
  assert (Hrange : ∀ i, i ∈ const' → in_range (length (iprobs_ p)) i).
  { intros i Hi. apply Hconst in Hi as [Hi|[Hi _]].
    - apply elem_of_empty in Hi. contradiction.
    - rewrite Hlen. apply Hmcs, Hits_mcs, Hi. }
  assert (Hkeep : ∀ literal,
            negb (bool_decide (Z.abs literal ∈ const'))
            = negb (is_stripped p literal)).
  { intros literal. f_equal. unfold is_stripped.
    destruct (decide (Z.abs literal ∈ const')) as [Hin|Hout].
    - rewrite bool_decide_eq_true_2 by assumption.
      apply Hconst in Hin as [Hin|[Hin Hc]];
        [apply elem_of_empty in Hin; contradiction|].
      rewrite bool_decide_eq_true_2 by (apply Hits_mcs; assumption).
      rewrite Hc. reflexivity.
    - rewrite bool_decide_eq_false_2 by assumption.
      destruct (decide (Z.abs literal ∈ mcs_basic_events_ p)) as [Hm|Hm].
      + rewrite bool_decide_eq_true_2 by assumption. cbn.
        destruct (is_constant_at (int_to_basic_ p) (Z.abs literal)) eqn:Ec;
          [|reflexivity].
        exfalso. apply Hout, Hconst. right. split; [apply Hits_mcs|]; assumption.
      + rewrite bool_decide_eq_false_2 by assumption. reflexivity. }
  destruct (strip_terms_spec const' (iprobs_ p) (pos_terms_ p) Hrange)
    as (pos_c & Hpos & Hpos_len).
  destruct (strip_terms_spec const' (iprobs_ p) (neg_terms_ p) Hrange)
    as (neg_c & Hneg & Hneg_len).
  rewrite Hpos. cbn [mbind option_bind]. rewrite Hneg. cbn [mbind option_bind].
  eexists _, _, pos_c, neg_c. split; [reflexivity|]. cbn.
  split; [reflexivity|].
  split; [apply Forall_forall; intros x Hx; apply list_elem_of_In in Hx;
          apply List.filter_In in Hx as [Hx _]; apply list_elem_of_In in Hx;
          apply Hmcs, Hits_mcs, Hx|].
  unfold strip_all.
  split; [apply map_ext; intros term; apply List.filter_ext; exact Hkeep|].
  split; [apply map_ext; intros term; apply List.filter_ext; exact Hkeep|].
  repeat split; assumption.
Qed.



Section Draws.
Variable good_event : BasicEvent → Prop.
Variable good_random : Random → Prop.
Hypothesis Hdraws : draws_probabilities good_event good_random.

Lemma reset_events_spec (basic_events : list Z) : ∀ events,
  Forall (in_range (length events)) basic_events →
  Forall good_event events →
  ∃ events',
    reset_events basic_events events = Some events' ∧
    length events' = length events ∧ Forall good_event events'.
Proof.
  induction basic_events as [|it_b rest IH]; intros events Hrange Hgood;
    cbn [reset_events].
  - eauto.
  - apply Forall_cons in Hrange as [Hit Hrange].
    destruct (at_index_in_range events it_b Hit) as (e & He & Hlook).
    rewrite He. cbn [mbind option_bind].
    rewrite (store_index_in_range events it_b _ Hit). cbn [mbind option_bind].
    destruct (IH (<[ Z.to_nat it_b := Reset e ]> events)) as (events' & Hrun & Hl & Hg).
    + rewrite length_insert. exact Hrange.
    + apply Forall_insert; [assumption|]. apply (proj1 Hdraws).
      apply (Forall_lookup_1 _ _ _ _ Hgood Hlook).
    + exists events'. rewrite length_insert in Hl. auto.
Qed.

Lemma sample_events_spec (basic_events : list Z) : ∀ events iprobs r,
  length iprobs = length events →
  Forall (in_range (length events)) basic_events →
  Forall good_event events → good_random r →
  ∃ events' iprobs' r',
    sample_events basic_events events iprobs r = Some (events', iprobs', r') ∧
    length events' = length events ∧ length iprobs' = length events ∧
    Forall good_event events' ∧ good_random r'.
Proof.
  induction basic_events as [|it_b rest IH]; intros events iprobs r Hlen Hrange
    Hgood Hr; cbn [sample_events].
  - eexists _, _, _. auto.
  - apply Forall_cons in Hrange as [Hit Hrange].
    destruct (at_index_in_range events it_b Hit) as (e & He & Hlook).
    rewrite He. cbn [mbind option_bind].
    pose proof (proj2 Hdraws e r (Forall_lookup_1 _ _ _ _ Hgood Hlook) Hr)
      as (Hprob & Hgood' & Hr').
    destruct (SampleProbability e r) as [[prob e'] r'].
    cbn [fst snd] in Hprob, Hgood', Hr'.
    rewrite (store_index_in_range events it_b _ Hit). cbn [mbind option_bind].
    unfold is_probability in Hprob. rewrite Hprob. cbn [assert mbind option_bind].
    rewrite store_index_in_range by (rewrite Hlen; exact Hit).
    cbn [mbind option_bind].
    destruct (IH (<[ Z.to_nat it_b := e' ]> events)
                 (<[ Z.to_nat it_b := prob ]> iprobs) r')
      as (events' & iprobs' & r'' & Hrun & Hl1 & Hl2 & Hg & Hr'').
    + rewrite !length_insert. exact Hlen.
    + rewrite length_insert. exact Hrange.
    + apply Forall_insert; assumption.
    + assumption.
    + eexists _, _, _. rewrite length_insert in Hl1, Hl2. eauto.
Qed.

Lemma sum_terms_returns (p : ProbabilityAnalysis) (consts : list double)
    (terms : list (list Z)) : ∀ j acc,
  0 ≤ j → j + Z.of_nat (length terms) ≤ Z.of_nat (length consts) →
  is_Some (sum_terms p terms consts j acc).
Proof.
  induction terms as [|it_s rest IH]; intros j acc Hj Hfit; cbn [sum_terms].
  - eauto.
  - cbn [length] in Hfit.
    destruct (at_index_in_range consts j) as (c & Hc & _); [split; lia|].
    rewrite Hc. cbn [mbind option_bind]. apply IH; lia.
Qed.

Lemma trial_returns (n : nat) (basic_events : list Z) (ua : UncertaintyAnalysis) :
  trial_invariant good_event good_random n ua →
  Forall (in_range n) basic_events →
  ∃ ua', trial basic_events ua = Some ua' ∧
         trial_invariant good_event good_random n ua'.
Proof.
  intros (Hle & Hlp & Hgood & Hr & Hpos & Hneg) Hrange. unfold trial.
  destruct (reset_events_spec basic_events (int_to_basic_ (base ua)))
    as (events1 & Hreset & Hl1 & Hg1); [rewrite Hle; assumption|assumption|].
  rewrite Hreset. cbn [mbind option_bind].
  destruct (sample_events_spec basic_events events1 (iprobs_ (base ua)) (random_ ua))
    as (events2 & iprobs2 & r2 & Hsample & Hl2 & Hl3 & Hg2 & Hr2);
    [congruence|rewrite Hl1, Hle; assumption|assumption|assumption|].
  rewrite Hsample. cbn [mbind option_bind].
  cbn [base set_random set_base set_events pos_terms_ neg_terms_
       pos_const_ neg_const_].
  destruct (sum_terms_returns
              (set_events events2 iprobs2 (base ua)) (pos_const_ ua)
              (pos_terms_ (base ua)) 0 0%float) as [pos Hp]; [lia|lia|].
  destruct (sum_terms_returns
              (set_events events2 iprobs2 (base ua)) (neg_const_ ua)
              (neg_terms_ (base ua)) 0 0%float) as [neg Hn]; [lia|lia|].
  rewrite Hp. cbn [mbind option_bind]. rewrite Hn. cbn [mbind option_bind].
  eexists. split; [reflexivity|].
  unfold trial_invariant. cbn. repeat split; try assumption; congruence.
Qed.

Lemma trials_return (n : nat) (basic_events : list Z) (count : nat) :
  ∀ ua, trial_invariant good_event good_random n ua →
        Forall (in_range n) basic_events →
        is_Some (trials count basic_events ua).
Proof.
  induction count as [|count IH]; intros ua Hinv Hrange; cbn [trials].
  - eauto.
  - destruct (trial_returns n basic_events ua Hinv Hrange) as (ua' & Ht & Hinv').
    rewrite Ht. cbn [mbind option_bind]. apply IH; assumption.
Qed.

(** X23: on an object whose subscripts are in range, with events and a
    generator whose draws are probabilities, [Sample] returns: no
    subscript leaves its vector and the assertion on the drawn
    probability never fires.  It appends one result per trial to the
    results already held and leaves settings and distribution alone. *)
Theorem Sample_returns_with_one_result_per_trial (ua : UncertaintyAnalysis) :
  indices_in_range ua →
  Forall good_event (int_to_basic_ (base ua)) → good_random (random_ ua) →
  ∃ ua' results,
    Sample ua = Some ua' ∧
    sampled_results_ ua' = sampled_results_ ua ++ results ∧
    length results = Z.to_nat (num_trials (kSettings_ ua)) ∧
    kSettings_ ua' = kSettings_ ua ∧ distribution_ ua' = distribution_ ua.
Proof.
  intros Hidx Hgood Hr.
  assert (Hsome : is_Some (Sample ua)).
  { destruct (FilterUncertainEvents_spec ua Hidx)
      as (basic_events & ua1 & pos_c & neg_c & Hf & _ & Hrange & Hpos & Hneg
          & Hpc & Hpl & Hnc & Hnl & Hip & Hev & _ & _ & Hrand).
    unfold Sample. rewrite Hf. cbn [mbind option_bind].
    apply (trials_return (length (int_to_basic_ (base ua)))); [|exact Hrange].
    destruct Hidx as [Hlen _]. unfold trial_invariant.
    rewrite Hev, Hip, Hrand, Hpos, Hneg, Hpc, Hnc.
    unfold strip_all. rewrite !length_map, !length_app.
    repeat split; try assumption; lia. }
  destruct Hsome as [ua' Hrun]. exists ua'.
  destruct (Sample_pushes_num_trials ua ua' Hrun) as (Hs & Hd & xs & Hlen & Hxs).
  exists xs. auto.
Qed.

End Draws.
End SampleOnWellFormed.

Lemma expanded_indices_in_range : indices_in_range Examples.expanded.
Proof.
  split; [reflexivity|]. intros i Hi. cbn in Hi.
  apply elem_of_union in Hi as [Hi|Hi]; apply elem_of_singleton in Hi; subst;
    unfold in_range; cbn; lia.
Qed.

Lemma spec_events_draw_probabilities :
  draws_probabilities SpecEvent.good SpecEvent.good_tape.
Proof.
  split.
  - intros e [Hn _]. split; [exact Hn|]. discriminate.
  - intros e r Hgood Hr. pose proof Hgood as [Hn Hc].
    cbn [SampleProbability spec_events].
    unfold SpecEvent.SampleProbability.
    destruct (SpecEvent.has_distribution e); [|cbn; auto].
    destruct (SpecEvent.cached e) as [v|] eqn:Ev.
    + cbn. split; [apply Hc; reflexivity|]. auto.
    + destruct r as [|v r]; [cbn; auto|].
      apply Forall_cons in Hr as [Hv Hr]. cbn.
      split; [exact Hv|]. split; [|exact Hr].
      split; [exact Hn|]. intros w [= <-]. exact Hv.
Qed.


(** On the example, the constant event [a] leaves the terms and the
    sampling loop is handed the event [b] alone. *)
Example filtered_terms_of_a_or_b :
  (λ r, (r.1, pos_terms_ (base r.2), neg_terms_ (base r.2),
         pos_const_ r.2, neg_const_ r.2))
    <$> FilterUncertainEvents Examples.expanded
  = Some ([2], [[]; [2]], [[2]], [0.125; 1]%float, [0.125%float]).
Proof. vm_compute. reflexivity. Qed.

Lemma Sample_returns_with_one_result_per_trial_witness :
  ∃ ua' results,
    Sample Examples.expanded = Some ua' ∧
    sampled_results_ ua' = sampled_results_ Examples.expanded ++ results ∧
    length results = Z.to_nat (num_trials (kSettings_ Examples.expanded)) ∧
    kSettings_ ua' = kSettings_ Examples.expanded ∧
    distribution_ ua' = distribution_ Examples.expanded.
Proof.
  apply (Sample_returns_with_one_result_per_trial (BE := spec_events)
           SpecEvent.good SpecEvent.good_tape spec_events_draw_probabilities
           Examples.expanded).
  - exact expanded_indices_in_range.
  - repeat (apply Forall_cons; split; [split; [reflexivity|discriminate]|]).
    apply Forall_nil. exact I.
  - repeat (apply Forall_cons; split; [reflexivity|]).
    apply Forall_nil. exact I.
Defined.
